(** * pp.core.spectral: pole decomposition and power spectral density

    A shallow embedding of [SpectralAnalyzer._compute_psd] (pp/core/spectral.py)
    and of the numpy routines it calls.

    Numbers.  numpy's float64 and complex128 are modelled by exact real numbers
    ([R]) and by pairs of reals ([C]).  Rounding is therefore not part of the
    model.  numpy's true division never raises: on a zero divisor it yields
    inf or nan together with a RuntimeWarning.  The model's division is total
    as well (a quotient by zero is left at the value Rocq gives it) and the
    statements below that concern such a quotient speak about its divisor.
    The one place where the code compares an infinite quotient,
    [min(0.99 / max(...), 1)], is written out by cases in [mod_scale_of].

    Python objects.  [SpectralAnalyzer._compute_psd] filters [poles_values]
    with the identity test [val is not p], so the numpy scalars that [sorted]
    puts in its list carry an identity.  The kind of a number matters as well:
    [min(x, 1)] hands back either the numpy float [x] or the Python int [1],
    and the two multiply a list differently. *)

From Stdlib Require Import String Reals Lra Lia List Bool ZArith Psatz Permutation Sorted.
Import ListNotations.

Local Open Scope R_scope.

(** ** Complex numbers as numpy's complex128, over exact reals *)

Module Cx.

Definition C : Type := (R * R)%type.

Definition re (z : C) : R := fst z.
Definition im (z : C) : R := snd z.

Definition of_R (x : R) : C := (x, 0).
Definition C0 : C := of_R 0.
Definition C1 : C := of_R 1.

Definition add (a b : C) : C := (re a + re b, im a + im b).
Definition opp (a : C) : C := (- re a, - im a).
Definition sub (a b : C) : C := (re a - re b, im a - im b).
Definition mul (a b : C) : C :=
  (re a * re b - im a * im b, re a * im b + im a * re b).
Definition conj (a : C) : C := (re a, - im a).

(** [|z|^2], the squared modulus *)
Definition norm2 (a : C) : R := re a * re a + im a * im a.

Definition inv (a : C) : C := (re a / norm2 a, - im a / norm2 a).
Definition div (a b : C) : C := mul a (inv b).

(** [np.abs] on a complex scalar *)
Definition abs (a : C) : R := sqrt (norm2 a).

(** [np.real] *)
Definition real (a : C) : R := re a.

(** real scalar times complex *)
Definition scale (s : R) (a : C) : C := (s * re a, s * im a).

Fixpoint pow (a : C) (n : nat) : C :=
  match n with
  | O => C1
  | S n' => mul a (pow a n')
  end.

(** [np.exp] of a purely imaginary argument [t*j] *)
Definition expi (t : R) : C := (cos t, sin t).

(** [np.prod] on a sequence of complex numbers *)
Definition prod (l : list C) : C := fold_left mul l C1.

(** [np.angle]: the principal argument, atan2 (im, re), in (-pi, pi] *)
Definition atan2 (y x : R) : R :=
  if Rlt_dec 0 x then atan (y / x)
  else if Rlt_dec x 0 then
         (if Rle_dec 0 y then atan (y / x) + PI else atan (y / x) - PI)
  else if Rlt_dec 0 y then PI / 2
  else if Rlt_dec y 0 then - (PI / 2)
  else 0.

Definition angle (a : C) : R := atan2 (im a) (re a).

End Cx.

Import Cx.

Declare Scope cx_scope.
Delimit Scope cx_scope with cx.
Bind Scope cx_scope with C.
Infix "+" := add : cx_scope.
Infix "-" := sub : cx_scope.
Infix "*" := mul : cx_scope.
Infix "/" := div : cx_scope.
Notation "- x" := (opp x) : cx_scope.


(** ** Outcome of a Python call: a value, or an exception named by its class *)

Inductive outcome (A : Type) : Type :=
| Returns (a : A)
| Raises (exc : string).

Arguments Returns {A} a.
Arguments Raises {A} exc.

Definition bind {A B : Type} (m : outcome A) (f : A -> outcome B) : outcome B :=
  match m with
  | Returns a => f a
  | Raises e => Raises e
  end.

Notation "x <- m ;; k" := (bind m (fun x => k))
  (at level 61, m at next level, right associativity).

(** ** Python numbers, boxed numpy scalars, builtins *)

(** A number as Python sees it: the literal [1] is an [int], a numpy quotient
    is a [float64]. *)
Inductive pynum : Type :=
| PyInt (n : Z)
| NpFloat64 (x : R).

Definition num_val (s : pynum) : R :=
  match s with
  | PyInt n => IZR n
  | NpFloat64 x => x
  end.

(** A boxed numpy scalar: its identity (what [is] compares) and its value. *)
Record pyobj : Type := mkobj { oid : nat; oval : C }.

(** Iterating a numpy array boxes each element into a new scalar object;
    identities are numbered in the order of creation, starting at [next]. *)
Fixpoint box_all (vs : list C) (next : nat) : list pyobj :=
  match vs with
  | [] => []
  | v :: vs' => mkobj next v :: box_all vs' (S next)
  end.

(** [s * l] for a Python list [l].  An [int] repeats the list; the new list
    holds the same objects.  For a numpy [float64] the scalar's multiplication
    declines a list operand, Python falls back on sequence repetition, and a
    [float64] is no repetition count: [TypeError] (can't multiply sequence by
    non-int of type 'numpy.float64'). *)
Definition py_mul_seq (s : pynum) (l : list pyobj) : outcome (list pyobj) :=
  match s with
  | PyInt n => Returns (concat (repeat l (Z.to_nat n)))
  | NpFloat64 _ => Raises "TypeError"%string
  end.

(** The builtin [max] on a sequence of floats. *)
Definition py_max (l : list R) : outcome R :=
  match l with
  | [] => Raises "ValueError"%string
  | x :: t => Returns (fold_left (fun m y => if Rlt_dec m y then y else m) t x)
  end.

(** [sorted(xs, key=...)] on a numpy array: the elements are boxed, then
    sorted stably by their key. *)
Fixpoint insert_by (key : C -> R) (x : pyobj) (l : list pyobj) : list pyobj :=
  match l with
  | [] => [x]
  | y :: t =>
      if Rlt_dec (key (oval x)) (key (oval y)) then x :: l
      else y :: insert_by key x t
  end.

Definition stable_sort (key : C -> R) (l : list pyobj) : list pyobj :=
  fold_left (fun acc x => insert_by key x acc) l [].

Definition py_sorted (key : C -> R) (vs : list C) : list pyobj :=
  stable_sort key (box_all vs O).

(** ** numpy routines *)

(** [np.mean]: the sum over the number of entries.  On an empty array numpy
    gives nan (with a RuntimeWarning); a real number cannot say so, and a
    statement below that depends on the sign or the size of the mean carries
    the hypothesis that the array is not empty. *)
Definition np_mean (l : list R) : R := fold_left Rplus l 0 / INR (length l).

(** [np.r_[1, -thetap]] *)
Definition np_r_1_neg (thetap : list R) : list R := 1 :: map Ropp thetap.

(** [np.polyval]: Horner's rule, highest degree first *)
Definition np_polyval (p : list R) (x : C) : C :=
  fold_left (fun y pv => (y * x + of_R pv)%cx) p C0.

Fixpoint cumprod_from (acc : R) (l : list R) : list R :=
  match l with
  | [] => []
  | x :: t => (acc * x) :: cumprod_from (acc * x) t
  end.

Definition np_cumprod (l : list R) : list R := cumprod_from 1 l.

Fixpoint zip_with {A B D : Type} (f : A -> B -> D) (l : list A) (l' : list B) : list D :=
  match l, l' with
  | a :: t, b :: t' => f a b :: zip_with f t t'
  | _, _ => []
  end.

(** [np.linspace(start, stop, num)] with the default [endpoint=True] *)
Definition np_linspace (start stop : R) (num : nat) : list R :=
  let div := (num - 1)%nat in
  let step := (stop - start) / INR div in
  let y := map (fun i => INR i * step + start) (seq 0 num) in
  if (1 <? num)%nat then removelast y ++ [stop] else y.

(** [np.isclose(a, b)] with the default [rtol=1e-05], [atol=1e-08] *)
Definition np_isclose (a b : C) : bool :=
  if Rle_dec (abs (a - b)) (1e-8 + 1e-5 * abs b) then true else false.

(** [np.exp] on a complex scalar *)
Definition np_exp (w : C) : C := scale (exp (re w)) (expi (im w)).

(** [np.roots].  Leading and trailing zeros of the coefficient list are
    stripped, the roots of what is left are the eigenvalues of its companion
    matrix, and one zero root is appended per stripped trailing zero. *)
Fixpoint lstrip0 (l : list R) : list R :=
  match l with
  | [] => []
  | x :: t => if Req_dec_T x 0 then lstrip0 t else l
  end.

Definition companion (p : list R) : list (list R) :=
  let n := (length p - 1)%nat in
  map (fun c => - c / hd 0 p) (tl p)
  :: map (fun i => map (fun j => if (j =? i)%nat then 1 else 0) (seq 0 n))
         (seq 0 (n - 1)).

Section Roots.

(** [numpy.linalg.eigvals], the LAPACK eigenvalue routine, is not part of the
    repository; it is a parameter of the development. *)
Variable eigvals : list (list R) -> list C.

Definition np_roots (p : list R) : list C :=
  match lstrip0 p with
  | [] => []
  | q =>
      let core := rev (lstrip0 (rev q)) in
      let trailing_zeros := (length q - length core)%nat in
      let roots := if (1 <? length core)%nat then eigvals (companion core) else [] in
      roots ++ repeat C0 trailing_zeros
  end.

End Roots.

(** ** The data classes of pp/core/spectral.py *)

Record Pole : Type := mkPole {
  pos : C;          (* position on the complex plane *)
  frequency : R;
  power : R;
  residual : C
}.

Record SpectralAnalysis : Type := mkSpectralAnalysis {
  frequencies : list R;     (* Hz *)
  powers : list R;          (* ms^2 / Hz *)
  poles : list Pole;
  comps : list (list C)
}.

(** The attributes of [PointProcessModel] (pp/core/model.py) that the analyzer
    reads. *)
Record PointProcessModel : Type := mkModel {
  theta : list R;
  wn : list R;
  k : R;
  hasTheta0 : bool
}.

Record SpectralAnalyzer : Type := mkAnalyzer {
  model : PointProcessModel;
  aggregate : bool
}.

(** ** SpectralAnalyzer._compute_psd *)

(** [min(0.99 / m, 1)] for [m = max(np.abs(poles_values))].  The builtin [min]
    keeps its first argument unless the second is smaller, so the result is the
    int [1] exactly when [1 < 0.99 / m], and the numpy quotient otherwise.  For
    [m = 0] the float64 quotient is [+inf], and [1 < inf]. *)
Definition mod_scale_of (m : R) : pynum :=
  if Req_dec_T m 0 then PyInt 1
  else if Rlt_dec 1 (0.99 / m) then PyInt 1
  else NpFloat64 (0.99 / m).

(** [thetap * np.cumprod(np.ones(thetap.shape) * mod_scale)] *)
Definition decay_thetap (thetap : list R) (mod_scale : pynum) : list R :=
  zip_with Rmult thetap
    (np_cumprod (map (fun _ => 1 * num_val mod_scale) thetap)).

(** The denominator [p * np.prod(p - others) * np.prod(1 / p - np.conj(poles_values))]
    of a residual. *)
Definition residual_den (p : C) (others all : list C) : C :=
  (p * prod (map (fun v => p - v) others)
     * prod (map (fun q => C1 / p - conj q) all))%cx.

(** The comprehension [[1 / (...) for p in poles_values]]; the inner
    comprehension [[val for val in poles_values if val is not p]] compares
    identities. *)
Definition poles_residuals_of (poles_values : list pyobj) : list C :=
  map (fun p =>
         let others := filter (fun val => negb (oid val =? oid p)%nat) poles_values in
         (C1 / residual_den (oval p) (map oval others) (map oval poles_values))%cx)
      poles_values.

(** The divisors of that comprehension, one per pole. *)
Definition residual_dens_of (poles_values : list pyobj) : list C :=
  map (fun p =>
         let others := filter (fun val => negb (oid val =? oid p)%nat) poles_values in
         residual_den (oval p) (map oval others) (map oval poles_values))
      poles_values.

(** One pass of the loop that fills [poles_comps]. *)
Definition pole_comp (var fsamp : R) (z : list C) (res p : C) : list C :=
  let ref_pole := (C1 / conj p)%cx in
  map (fun zj =>
         let pp := (res * p / (zj - p))%cx in
         let refpp := (- conj res * ref_pole / (zj - ref_pole))%cx in
         scale (var / fsamp) (pp + refpp)%cx) z.

(** [poles_comps_agg[-1] += c] *)
Definition add_to_last (agg : list (list C)) (c : list C) : list (list C) :=
  removelast agg ++ [zip_with add (last agg []) c].

(** The aggregation loop, [prev] being [poles_values[i - 1]]. *)
Fixpoint aggregate_loop (prev : C) (rest : list (C * list C))
  (agg : list (list C)) : list (list C) :=
  match rest with
  | [] => agg
  | (p, c) :: rest' =>
      aggregate_loop p rest'
        (if np_isclose p (conj prev) then add_to_last agg c else agg ++ [c])
  end.

Definition grid_size : nat := 2048.

Section Analyzer.

Variable eigvals : list (list R) -> list C.

Definition _compute_psd (self : SpectralAnalyzer) (theta wn : list R) (k : R)
  : outcome SpectralAnalysis :=
  let thetap := if hasTheta0 (model self) then tl theta else theta in
  let mean_interval := np_mean wn in
  let var := mean_interval ^ 3 / k in
  let var := 1e6 * var in
  let fsamp := 1 / mean_interval in
  let ar := np_r_1_neg thetap in
  let poles_values := np_roots eigvals ar in
  let poles_values := py_sorted (fun x => Rabs (angle x)) poles_values in
  m <- py_max (map (fun o => abs (oval o)) poles_values) ;;
  let mod_scale := mod_scale_of m in
  poles_values <- py_mul_seq mod_scale poles_values ;;
  let thetap := decay_thetap thetap mod_scale in
  let fs := np_linspace (-0.5) 0.5 grid_size in
  let z := map (fun f => np_exp (mul (0, 2 * PI) (of_R f))) fs in
  let powers :=
    map (fun zj => (var / fsamp) / abs (np_polyval (np_r_1_neg thetap) (conj zj)) ^ 2) z in
  let frequencies := map (fun f => f * fsamp) fs in
  let poles_residuals := poles_residuals_of poles_values in
  let pvals := map oval poles_values in
  let poles_frequencies := map (fun p => angle p / (2 * PI) * fsamp) pvals in
  let poles_powers := map (fun r => var * real r) poles_residuals in
  let poles_comps :=
    zip_with (fun r p => pole_comp var fsamp z r p) poles_residuals pvals in
  match poles_comps, pvals with
  | c0 :: cs, p0 :: ps =>
      let poles_comps_agg := aggregate_loop p0 (combine ps cs) [c0] in
      let poles :=
        zip_with (fun '(pos, freq) '(pw, res) => mkPole pos freq pw res)
          (combine pvals poles_frequencies) (combine poles_powers poles_residuals) in
      Returns (mkSpectralAnalysis frequencies powers poles
                 (if aggregate self then poles_comps_agg else poles_comps))
  | _, _ => Raises "IndexError"%string
  end.

(** [SpectralAnalyzer.psd] *)
Definition psd (self : SpectralAnalyzer) : outcome SpectralAnalysis :=
  _compute_psd self (theta (model self)) (wn (model self)) (k (model self)).

End Analyzer.

(** ** The intermediate values of [_compute_psd], named *)

Section Stages.

Variable eigvals : list (list R) -> list C.

(** [thetap], the AR coefficients once the intercept is removed *)
Definition thetap_of (self : SpectralAnalyzer) (theta : list R) : list R :=
  if hasTheta0 (model self) then tl theta else theta.

(** [poles_values] after [sorted], before the stability correction *)
Definition sorted_roots (thetap : list R) : list pyobj :=
  py_sorted (fun x => Rabs (angle x)) (np_roots eigvals (np_r_1_neg thetap)).

(** [max(np.abs(poles_values))] where it is defined *)
Definition max_abs (ps : list pyobj) : R :=
  match py_max (map (fun o => abs (oval o)) ps) with
  | Returns m => m
  | Raises _ => 0
  end.

(** [mod_scale] *)
Definition scale_factor (thetap : list R) : pynum :=
  mod_scale_of (max_abs (sorted_roots thetap)).

(** [poles_values] and [thetap] after the stability correction *)
Definition stable_poles (thetap : list R) : list pyobj :=
  match py_mul_seq (scale_factor thetap) (sorted_roots thetap) with
  | Returns l => l
  | Raises _ => []
  end.

Definition stable_thetap (thetap : list R) : list R :=
  decay_thetap thetap (scale_factor thetap).

Definition fs_grid : list R := np_linspace (-0.5) 0.5 grid_size.

Definition z_grid : list C :=
  map (fun f => np_exp (mul (0, 2 * PI) (of_R f))) fs_grid.

Definition variance (wn : list R) (k : R) : R := 1e6 * (np_mean wn ^ 3 / k).

Definition sampling_rate (wn : list R) : R := 1 / np_mean wn.

Definition residuals (thetap : list R) : list C :=
  poles_residuals_of (stable_poles thetap).

Definition plain_comps (thetap wn : list R) (k : R) : list (list C) :=
  zip_with (fun r p => pole_comp (variance wn k) (sampling_rate wn) z_grid r p)
    (residuals thetap) (map oval (stable_poles thetap)).

Definition agg_comps (thetap wn : list R) (k : R) : list (list C) :=
  let pvals := map oval (stable_poles thetap) in
  let pcs := plain_comps thetap wn k in
  aggregate_loop (hd C0 pvals) (combine (tl pvals) (tl pcs)) [hd [] pcs].

(** The record [_compute_psd] returns when it returns. *)
Definition result_of (self : SpectralAnalyzer) (theta wn : list R) (k : R)
  : SpectralAnalysis :=
  let thetap := thetap_of self theta in
  let var := variance wn k in
  let fsamp := sampling_rate wn in
  let pvals := map oval (stable_poles thetap) in
  let rs := residuals thetap in
  mkSpectralAnalysis
    (map (fun f => f * fsamp) fs_grid)
    (map (fun zj =>
            (var / fsamp) / abs (np_polyval (np_r_1_neg (stable_thetap thetap)) (conj zj)) ^ 2)
         z_grid)
    (zip_with (fun '(pos, freq) '(pw, res) => mkPole pos freq pw res)
       (combine pvals (map (fun p => angle p / (2 * PI) * fsamp) pvals))
       (combine (map (fun r => var * real r) rs) rs))
    (if aggregate self then agg_comps thetap wn k else plain_comps thetap wn k).

End Stages.

(** ** The formulas of the specification *)

(** [A(w) = 1 - th1 w^-1 - ... - thp w^-p]; [ar_terms th w i] is the sum that
    starts at exponent [i]. *)
Fixpoint ar_terms (th : list R) (w : C) (i : nat) : C :=
  match th with
  | [] => C0
  | t :: th' => (of_R t * inv (pow w i) + ar_terms th' w (S i))%cx
  end.

Definition A_spec (th : list R) (w : C) : C := (C1 - ar_terms th w 1)%cx.

(** The decay factor [min(0.99 / m, 1)], the quotient being [+inf] when
    [m = 0]. *)
Definition decay_factor (m : R) : R :=
  if Req_dec_T m 0 then 1 else Rmin (0.99 / m) 1.

Fixpoint remove_nth {A : Type} (i : nat) (l : list A) : list A :=
  match l, i with
  | [], _ => []
  | _ :: t, O => t
  | a :: t, S i' => a :: remove_nth i' t
  end.

(** [residue_i = 1 / (p_i * prod_{j <> i} (p_i - p_j) * prod_j (1 / p_i - conj p_j))]:
    the first product leaves out index [i] and nothing else. *)
Definition residue_spec (ps : list C) (i : nat) : C :=
  let p := nth i ps C0 in
  (C1 / (p * prod (map (fun q => p - q) (remove_nth i ps))
           * prod (map (fun q => C1 / p - conj q) ps)))%cx.

(** The number of positions [i >= 1] at which the aggregation loop merges,
    that is at which [np.isclose(poles_values[i], np.conj(poles_values[i-1]))]. *)
Fixpoint merges (ps : list C) : nat :=
  match ps with
  | a :: (b :: _) as t => ((if np_isclose b (conj a) then 1 else 0) + merges t)%nat
  | _ => O
  end.

(** ** Inputs to run the analyzer on *)

(** An eigenvalue routine that returns the diagonal of its argument.  The
    diagonal is the spectrum of a triangular matrix, in particular of a 1x1
    matrix, which is the companion matrix [np.roots] builds for a polynomial
    of degree one. *)
Definition eigvals_diag (A : list (list R)) : list C :=
  map (fun i => of_R (nth i (nth i A []) 0)) (seq 0 (length A)).

(** An analyzer with aggregation enabled on a model without intercept:
    [theta], [wn] and [k] are the model's fields. *)
Definition analyzer_of (th w : list R) (k0 : R) : SpectralAnalyzer :=
  mkAnalyzer (mkModel th w k0 false) true.

(** ** Quantities read off a result *)

(** The element-wise sum of a list of arrays of [n] entries: what summing the
    per-pole contribution arrays over the poles gives. *)
Definition comps_total (n : nat) (l : list (list C)) : list C :=
  fold_left (zip_with add) l (repeat C0 n).

(** * Properties *)

(** ** Complex arithmetic *)

Lemma C_eq (a b : C) : re a = re b -> im a = im b -> a = b.
Proof. destruct a, b; simpl; intros; subst; reflexivity. Qed.

Ltac cx_simpl :=
  unfold div, inv, mul, add, sub, opp, conj, scale, norm2, of_R, C1, C0, real, re, im in *;
  simpl fst in *; simpl snd in *.

Ltac cx_ring := intros; apply C_eq; cx_simpl; ring.

Lemma C_ring_theory : ring_theory C0 C1 add mul sub opp (@eq C).
Proof.
  constructor; try solve [intros [? ?]; cx_ring | intros [? ?] [? ?]; cx_ring
                         | intros [? ?] [? ?] [? ?]; cx_ring].
Qed.

Add Ring C_ring : C_ring_theory.

Lemma norm2_nonneg (a : C) : 0 <= norm2 a.
Proof. unfold norm2. nra. Qed.

Lemma norm2_mul (a b : C) : norm2 (a * b) = norm2 a * norm2 b.
Proof. cx_simpl. ring. Qed.

Lemma abs_mul (a b : C) : abs (a * b) = abs a * abs b.
Proof.
  unfold abs. rewrite norm2_mul.
  apply sqrt_mult; apply norm2_nonneg.
Qed.

Lemma abs_sqr (a : C) : (abs a) ^ 2 = norm2 a.
Proof.
  unfold abs. simpl. rewrite Rmult_1_r.
  apply sqrt_sqrt, norm2_nonneg.
Qed.

Lemma norm2_conj w : norm2 (conj w) = norm2 w.
Proof. cx_simpl. ring. Qed.

Lemma norm2_expi t : norm2 (expi t) = 1.
Proof.
  unfold norm2, expi, re, im. cbn [fst snd].
  pose proof (sin2_cos2 t) as H. unfold Rsqr in H. lra.
Qed.

Lemma norm2_pow w n : norm2 (pow w n) = norm2 w ^ n.
Proof.
  induction n as [|n IH]; simpl.
  - cx_simpl. ring.
  - rewrite norm2_mul, IH. reflexivity.
Qed.

Lemma mul_inv_r w : norm2 w <> 0 -> (w * inv w)%cx = C1.
Proof.
  intros H. apply C_eq; cx_simpl; unfold norm2, re, im in H; cbn [fst snd] in H;
    field; exact H.
Qed.

Lemma scale_one p : scale 1 p = p.
Proof. destruct p. unfold scale, re, im. cbn [fst snd]. f_equal; ring. Qed.

Lemma abs_nonneg p : 0 <= abs p.
Proof. apply sqrt_pos. Qed.


Lemma abs_of_R x : abs (of_R x) = Rabs x.
Proof.
  unfold abs, norm2, of_R, re, im. cbn [fst snd].
  replace (x * x + 0 * 0) with (Rsqr x) by (unfold Rsqr; ring).
  apply sqrt_Rsqr_abs.
Qed.

Lemma abs_C0 : abs C0 = 0.
Proof. unfold C0. rewrite abs_of_R. apply Rabs_R0. Qed.

Lemma of_R_sub a b : (of_R a - of_R b)%cx = of_R (a - b).
Proof. apply C_eq; cx_simpl; ring. Qed.

Lemma of_R_conj a : conj (of_R a) = of_R a.
Proof. apply C_eq; cx_simpl; ring. Qed.

Lemma sub_diag p : (p - p)%cx = C0.
Proof. ring. Qed.

Lemma fold_left_mul acc l : fold_left mul l acc = (acc * fold_left mul l C1)%cx.
Proof.
  revert acc. induction l as [|a l IH]; intros acc; simpl.
  - ring.
  - rewrite (IH (acc * a)%cx), (IH (C1 * a)%cx). ring.
Qed.

Lemma prod_cons a l : prod (a :: l) = (a * prod l)%cx.
Proof.
  unfold prod. simpl. rewrite fold_left_mul.
  replace (C1 * a)%cx with a by ring. reflexivity.
Qed.

Lemma prod_zero l : In C0 l -> prod l = C0.
Proof.
  induction l as [|a l IH]; intros H; [destruct H|].
  rewrite prod_cons. destruct H as [-> | H]; [ring | rewrite IH by exact H; ring].
Qed.

Lemma angle_of_R_pos x : 0 < x -> angle (of_R x) = 0.
Proof.
  intros Hx. unfold angle, atan2, of_R, re, im. cbn [fst snd].
  destruct (Rlt_dec 0 x) as [_|H]; [|contradiction].
  unfold Rdiv. rewrite Rmult_0_l. apply atan_0.
Qed.

Lemma angle_C0 : angle C0 = 0.
Proof.
  unfold angle, atan2, C0, of_R, re, im. cbn [fst snd].
  destruct (Rlt_dec 0 0) as [H|_]; [exfalso; exact (Rlt_irrefl _ H) | reflexivity].
Qed.

Lemma Rdiv_nonneg x y : 0 <= x -> 0 <= y -> 0 <= x / y.
Proof.
  intros Hx Hy. unfold Rdiv. apply Rmult_le_pos; [exact Hx|].
  destruct (Req_dec_T y 0) as [->|Hn].
  - rewrite Rinv_0. lra.
  - left. apply Rinv_0_lt_compat. lra.
Qed.

(** ** Lists *)

Lemma removelast_length {A : Type} (l : list A) :
  length (removelast l) = (length l - 1)%nat.
Proof.
  rewrite removelast_firstn_len, length_firstn. lia.
Qed.

Lemma removelast_nth {A : Type} (l : list A) i d :
  (i < length l - 1)%nat -> nth i (removelast l) d = nth i l d.
Proof.
  revert i. induction l as [|a l IH]; intros i Hi; simpl in *; [lia|].
  destruct l as [|b l]; [simpl in *; lia|].
  destruct i as [|i]; [reflexivity|].
  apply IH. simpl in *. lia.
Qed.

Lemma map_nth_lt {A B : Type} (f : A -> B) (l : list A) i da db :
  (i < length l)%nat -> nth i (map f l) db = f (nth i l da).
Proof.
  intros H. rewrite (nth_indep _ db (f da)) by now rewrite length_map.
  apply map_nth.
Qed.

Lemma filter_all {A : Type} (f : A -> bool) l :
  (forall x, In x l -> f x = true) -> filter f l = l.
Proof.
  induction l as [|a l IH]; intros H; simpl; [reflexivity|].
  rewrite (H a) by now left. f_equal. apply IH. intros x Hx. apply H. now right.
Qed.

Lemma map_fst_combine {A B : Type} (l : list A) (l' : list B) :
  length l = length l' -> map fst (combine l l') = l.
Proof.
  revert l'. induction l as [|a l IH]; intros [|b l'] H; simpl in *;
    try discriminate; [reflexivity|].
  f_equal. apply IH. congruence.
Qed.

Lemma map_const_repeat {A B : Type} (b : B) (l : list A) :
  map (fun _ => b) l = repeat b (length l).
Proof. induction l; simpl; congruence. Qed.

Lemma zip_with_length {A B D : Type} (f : A -> B -> D) l l' :
  length (zip_with f l l') = Nat.min (length l) (length l').
Proof.
  revert l'. induction l as [|a l IH]; intros [|b l']; simpl; auto.
Qed.

Lemma zip_with_nth {A B D : Type} (f : A -> B -> D) l l' i da db dd :
  (i < length l)%nat -> (i < length l')%nat ->
  nth i (zip_with f l l') dd = f (nth i l da) (nth i l' db).
Proof.
  revert l' i. induction l as [|a l IH]; intros [|b l'] [|i]; simpl; intros; try lia; auto.
  apply IH; lia.
Qed.

Lemma cumprod_from_length acc l : length (cumprod_from acc l) = length l.
Proof.
  revert acc. induction l as [|x l IH]; intros acc; simpl; auto.
Qed.

Lemma cumprod_from_const acc s n i :
  (i < n)%nat ->
  nth i (cumprod_from acc (repeat s n)) 0 = acc * s ^ (S i).
Proof.
  revert acc i. induction n as [|n IH]; intros acc [|i] Hi; simpl in *; try lia.
  - ring.
  - rewrite IH by lia. simpl. ring.
Qed.

(** ** Boxing, sorting, the builtin [max] *)

Lemma box_all_vals (vs : list C) (h : nat) : map oval (box_all vs h) = vs.
Proof.
  revert h. induction vs as [|v vs IH]; intros h; simpl; [reflexivity|].
  now rewrite IH.
Qed.

Lemma box_all_oids (vs : list C) (h : nat) : map oid (box_all vs h) = seq h (length vs).
Proof.
  revert h. induction vs as [|v vs IH]; intros h; simpl; [reflexivity|].
  now rewrite IH.
Qed.


Lemma insert_by_perm key x l : Permutation (insert_by key x l) (x :: l).
Proof.
  induction l as [|y t IH]; simpl; [reflexivity|].
  destruct (Rlt_dec _ _); [reflexivity|].
  rewrite IH. apply perm_swap.
Qed.

Lemma stable_sort_perm_gen key l acc :
  Permutation (fold_left (fun a x => insert_by key x a) l acc) (l ++ acc).
Proof.
  revert acc. induction l as [|x l IH]; intros acc; simpl; [reflexivity|].
  rewrite IH, insert_by_perm. symmetry. apply Permutation_middle.
Qed.

Lemma stable_sort_perm key l : Permutation (stable_sort key l) l.
Proof.
  unfold stable_sort. rewrite stable_sort_perm_gen. now rewrite app_nil_r.
Qed.

Lemma py_sorted_perm key vs : Permutation (map oval (py_sorted key vs)) vs.
Proof.
  unfold py_sorted. rewrite <- (box_all_vals vs O) at 2.
  apply Permutation_map, stable_sort_perm.
Qed.

Lemma py_sorted_length key vs : length (py_sorted key vs) = length vs.
Proof.
  rewrite <- (length_map oval). apply Permutation_length, py_sorted_perm.
Qed.

Lemma py_sorted_In key vs v : In v (map oval (py_sorted key vs)) <-> In v vs.
Proof.
  split; apply Permutation_in; [|symmetry]; apply py_sorted_perm.
Qed.

(** The objects [sorted] returns are pairwise distinct. *)
Lemma py_sorted_oids key vs : NoDup (map oid (py_sorted key vs)).
Proof.
  unfold py_sorted. eapply Permutation_NoDup.
  - apply Permutation_map, Permutation_sym, stable_sort_perm.
  - rewrite box_all_oids. apply seq_NoDup.
Qed.

Lemma fold_max_ge (l : list R) (x : R) :
  let m := fold_left (fun m y => if Rlt_dec m y then y else m) l x in
  x <= m /\ Forall (fun y => y <= m) l /\ (m = x \/ In m l).
Proof.
  revert x. induction l as [|a l IH]; intros x; simpl.
  - split; [lra | split; [constructor | now left]].
  - destruct (Rlt_dec x a) as [Hlt|Hge].
    + destruct (IH a) as (H1 & H2 & H3). split; [lra|]. split.
      * constructor; assumption.
      * right. destruct H3 as [-> | H3]; [now left | now right].
    + destruct (IH x) as (H1 & H2 & H3). split; [lra|]. split.
      * constructor; [lra | assumption].
      * destruct H3 as [-> | H3]; [now left | right; now right].
Qed.

Lemma py_max_spec (l : list R) (m : R) :
  py_max l = Returns m -> Forall (fun y => y <= m) l /\ In m l.
Proof.
  destruct l as [|x t]; simpl; [discriminate|].
  intros H. injection H as <-.
  destruct (fold_max_ge t x) as (H1 & H2 & H3). split.
  - constructor; assumption.
  - destruct H3 as [-> | H3]; [now left | now right].
Qed.

Lemma py_max_nonempty (l : list R) : l <> [] -> exists m, py_max l = Returns m.
Proof.
  destruct l as [|x t]; [congruence|]. intros _. simpl. eauto.
Qed.

Lemma max_abs_spec (ps : list pyobj) :
  ps <> [] ->
  Forall (fun o => abs (oval o) <= max_abs ps) ps
  /\ In (max_abs ps) (map (fun o => abs (oval o)) ps).
Proof.
  intros Hne. unfold max_abs.
  destruct (py_max_nonempty (map (fun o => abs (oval o)) ps)) as [m Hm].
  { destruct ps; [congruence | discriminate]. }
  rewrite Hm. apply py_max_spec in Hm. destruct Hm as [H1 H2]. split; [|exact H2].
  rewrite Forall_map in H1. exact H1.
Qed.

Lemma max_abs_nonneg ps : 0 <= max_abs ps.
Proof.
  destruct ps as [|o ps]; [unfold max_abs; simpl; lra|].
  destruct (max_abs_spec (o :: ps)) as [_ H]; [discriminate|].
  apply in_map_iff in H. destruct H as [x [<- _]]. apply abs_nonneg.
Qed.

Lemma max_abs_single n v : max_abs [mkobj n v] = abs v.
Proof. reflexivity. Qed.

(** ** The decay factor *)

Lemma mod_scale_of_cases m :
  (m < 0.99 /\ mod_scale_of m = PyInt 1)
  \/ (0.99 <= m /\ mod_scale_of m = NpFloat64 (0.99 / m))
  \/ (m < 0 /\ mod_scale_of m = NpFloat64 (0.99 / m)).
Proof.
  unfold mod_scale_of. destruct (Req_dec_T m 0) as [Hz|Hnz].
  - left. split; [lra | reflexivity].
  - destruct (Rlt_dec 1 (0.99 / m)) as [Hlt|Hge].
    + left. split; [|reflexivity].
      destruct (Rlt_dec m 0.99) as [|Hm]; [assumption|]. exfalso.
      assert (0 < m) by lra.
      assert (Hq : 0.99 / m * m = 0.99) by (field; exact Hnz). nra.
    + destruct (Rlt_dec m 0) as [Hneg|Hpos]; [right; right; now split|].
      right. left. split; [|reflexivity].
      assert (0 < m) by lra.
      assert (Hq : 0.99 / m * m = 0.99) by (field; exact Hnz). nra.
Qed.

Lemma mod_scale_of_val m : 0 <= m -> num_val (mod_scale_of m) = decay_factor m.
Proof.
  intros _. unfold mod_scale_of, decay_factor. destruct (Req_dec_T m 0); [reflexivity|].
  unfold Rmin. destruct (Rlt_dec 1 (0.99 / m)), (Rle_dec (0.99 / m) 1);
    simpl; lra.
Qed.


Lemma decay_factor_stable m : 0 <= m -> m <= 0.99 -> decay_factor m = 1.
Proof.
  intros Hm0 Hm. unfold decay_factor. destruct (Req_dec_T m 0) as [|Hn]; [reflexivity|].
  apply Rmin_right. apply Rmult_le_reg_r with m; [lra|].
  replace (0.99 / m * m) with 0.99 by (field; lra). lra.
Qed.

Lemma decay_thetap_length thetap s : length (decay_thetap thetap s) = length thetap.
Proof.
  unfold decay_thetap, np_cumprod.
  rewrite zip_with_length, cumprod_from_length, length_map. lia.
Qed.

Lemma decay_thetap_nth thetap s i :
  (i < length thetap)%nat ->
  nth i (decay_thetap thetap s) 0 = nth i thetap 0 * num_val s ^ (S i).
Proof.
  intros Hi. unfold decay_thetap, np_cumprod.
  rewrite (zip_with_nth _ _ _ _ 0 0) by (rewrite ?cumprod_from_length, ?length_map; lia).
  rewrite map_const_repeat, cumprod_from_const by exact Hi.
  rewrite !Rmult_1_l. reflexivity.
Qed.

Lemma decay_thetap_one thetap s : num_val s = 1 -> decay_thetap thetap s = thetap.
Proof.
  intros Hs. apply (nth_ext _ _ 0 0).
  - apply decay_thetap_length.
  - intros i Hi. rewrite decay_thetap_length in Hi.
    rewrite decay_thetap_nth, Hs, pow1 by exact Hi. ring.
Qed.

(** ** The outcome of [_compute_psd] *)

Lemma poles_projections (pv : list C) (fr pw : list R) (rs : list C) :
  length fr = length pv -> length pw = length pv -> length rs = length pv ->
  let ps := zip_with (fun '(pos, freq) '(pw, res) => mkPole pos freq pw res)
              (combine pv fr) (combine pw rs) in
  map pos ps = pv /\ map residual ps = rs /\ length ps = length pv.
Proof.
  revert fr pw rs.
  induction pv as [|p pv IH]; intros [|f fr] [|w pw] [|r rs]; simpl;
    intros H1 H2 H3; try discriminate; [repeat split|].
  destruct (IH fr pw rs) as (A1 & A2 & A3); try congruence.
  repeat split; simpl; congruence.
Qed.

Section Outcome.

Variable eigvals : list (list R) -> list C.

Lemma scale_factor_cases thetap :
  let m := max_abs (sorted_roots eigvals thetap) in
  (m < 0.99 /\ scale_factor eigvals thetap = PyInt 1)
  \/ (0.99 <= m /\ scale_factor eigvals thetap = NpFloat64 (0.99 / m)).
Proof.
  intros m. pose proof (max_abs_nonneg (sorted_roots eigvals thetap)) as H0. fold m in H0.
  unfold scale_factor. fold m.
  destruct (mod_scale_of_cases m) as [H | [H | [H _]]]; [now left | now right | lra].
Qed.

Lemma stable_poles_list thetap :
  scale_factor eigvals thetap = PyInt 1 ->
  stable_poles eigvals thetap = sorted_roots eigvals thetap.
Proof.
  intros E. unfold stable_poles. rewrite E. simpl. apply app_nil_r.
Qed.

Lemma residuals_length thetap :
  length (residuals eigvals thetap) = length (stable_poles eigvals thetap).
Proof. unfold residuals, poles_residuals_of. apply length_map. Qed.

Lemma plain_comps_length thetap w k0 :
  length (plain_comps eigvals thetap w k0) = length (stable_poles eigvals thetap).
Proof.
  unfold plain_comps. rewrite zip_with_length, residuals_length, length_map. lia.
Qed.

(** [_compute_psd] raises [ValueError] when there is no pole, [TypeError] when
    [mod_scale] is a numpy float, and otherwise returns the record assembled
    from the named intermediate values. *)
Lemma compute_psd_unfold self theta wn k :
  _compute_psd eigvals self theta wn k =
  match sorted_roots eigvals (thetap_of self theta) with
  | [] => Raises "ValueError"%string
  | _ :: _ =>
      match scale_factor eigvals (thetap_of self theta) with
      | PyInt _ => Returns (result_of eigvals self theta wn k)
      | NpFloat64 _ => Raises "TypeError"%string
      end
  end.
Proof.
  pose proof (scale_factor_cases (thetap_of self theta)) as Hc. cbv zeta in Hc.
  pose proof (stable_poles_list (thetap_of self theta)) as Hsp.
  unfold result_of, agg_comps, plain_comps, residuals, stable_thetap.
  destruct Hc as [[_ E] | [_ E]]; rewrite ?(Hsp E); rewrite E; clear Hsp.
  - unfold _compute_psd, scale_factor, max_abs, sorted_roots, variance,
      sampling_rate, z_grid, fs_grid in *.
    fold (thetap_of self theta) in *.
    destruct (py_sorted _ (np_roots eigvals (np_r_1_neg (thetap_of self theta))))
      as [|o ps]; [reflexivity|].
    cbn [map py_max bind] in *. rewrite E. cbn [py_mul_seq bind].
    change (concat (repeat (o :: ps) (Z.to_nat 1))) with ((o :: ps) ++ []).
    rewrite app_nil_r. unfold poles_residuals_of.
    cbn [map zip_with hd tl]. reflexivity.
  - unfold _compute_psd, scale_factor, max_abs, sorted_roots in *.
    fold (thetap_of self theta) in *.
    destruct (py_sorted _ (np_roots eigvals (np_r_1_neg (thetap_of self theta))))
      as [|o ps]; [reflexivity|].
    cbn [map py_max bind] in *. rewrite E. reflexivity.
Qed.

Lemma compute_psd_returns_inv self theta wn k res :
  _compute_psd eigvals self theta wn k = Returns res ->
  res = result_of eigvals self theta wn k
  /\ sorted_roots eigvals (thetap_of self theta) <> []
  /\ max_abs (sorted_roots eigvals (thetap_of self theta)) < 0.99
  /\ scale_factor eigvals (thetap_of self theta) = PyInt 1.
Proof.
  rewrite compute_psd_unfold.
  destruct (sorted_roots eigvals (thetap_of self theta)) eqn:Hs; [discriminate|].
  rewrite <- Hs.
  destruct (scale_factor_cases (thetap_of self theta)) as [[Hm E] | [Hm E]];
    rewrite E; [|discriminate].
  intros H. injection H as <-. repeat split; try assumption. congruence.
Qed.

Lemma compute_psd_returns self theta wn k :
  sorted_roots eigvals (thetap_of self theta) <> [] ->
  max_abs (sorted_roots eigvals (thetap_of self theta)) < 0.99 ->
  _compute_psd eigvals self theta wn k = Returns (result_of eigvals self theta wn k).
Proof.
  intros Hne Hm. rewrite compute_psd_unfold.
  destruct (sorted_roots eigvals (thetap_of self theta)) eqn:Hs; [congruence|].
  rewrite <- Hs in *.
  destruct (scale_factor_cases (thetap_of self theta)) as [[_ E] | [Hge _]];
    [now rewrite E | lra].
Qed.

(** The stability correction cannot be carried out: as soon as a root has
    modulus 0.99 or more, [mod_scale] is a numpy float and
    [mod_scale * poles_values] raises. *)
Lemma compute_psd_unstable self theta wn k :
  sorted_roots eigvals (thetap_of self theta) <> [] ->
  0.99 <= max_abs (sorted_roots eigvals (thetap_of self theta)) ->
  _compute_psd eigvals self theta wn k = Raises "TypeError"%string.
Proof.
  intros Hne Hm. rewrite compute_psd_unfold.
  destruct (sorted_roots eigvals (thetap_of self theta)) eqn:Hs; [congruence|].
  rewrite <- Hs in *.
  destruct (scale_factor_cases (thetap_of self theta)) as [[Hlt _] | [_ E]];
    [lra | now rewrite E].
Qed.

(** No other exception class can leave [_compute_psd]. *)
Lemma compute_psd_raises self theta wn k exc :
  _compute_psd eigvals self theta wn k = Raises exc ->
  exc = "ValueError"%string \/ exc = "TypeError"%string.
Proof.
  rewrite compute_psd_unfold.
  destruct (sorted_roots eigvals (thetap_of self theta)).
  - intros H. injection H as <-. now left.
  - destruct (scale_factor eigvals (thetap_of self theta)); [discriminate|].
    intros H. injection H as <-. now right.
Qed.

Lemma result_poles self theta wn k :
  scale_factor eigvals (thetap_of self theta) = PyInt 1 ->
  let res := result_of eigvals self theta wn k in
  map pos (poles res) = map oval (sorted_roots eigvals (thetap_of self theta))
  /\ map residual (poles res) = poles_residuals_of (sorted_roots eigvals (thetap_of self theta))
  /\ length (poles res) = length (sorted_roots eigvals (thetap_of self theta)).
Proof.
  intros E res. unfold res, result_of. cbn [poles].
  unfold residuals. rewrite (stable_poles_list _ E).
  set (l := sorted_roots eigvals (thetap_of self theta)).
  rewrite <- (length_map oval l).
  apply poles_projections; unfold poles_residuals_of; now rewrite ?length_map.
Qed.

End Outcome.

(** ** The number of poles *)

Lemma lstrip0_length_le l : (length (lstrip0 l) <= length l)%nat.
Proof.
  induction l as [|x l IH]; simpl; [lia|].
  destruct (Req_dec_T x 0); simpl; lia.
Qed.

Lemma lstrip0_snoc_nonzero l x : x <> 0 -> lstrip0 (l ++ [x]) <> [].
Proof.
  intros Hx. induction l as [|y l IH]; simpl.
  - destruct (Req_dec_T x 0); [contradiction | discriminate].
  - destruct (Req_dec_T y 0); [assumption | discriminate].
Qed.

Lemma companion_length p : (1 < length p)%nat -> length (companion p) = (length p - 1)%nat.
Proof.
  intros H. unfold companion. simpl. rewrite length_map, length_seq. lia.
Qed.

Lemma sorted_roots_nil eigvals : sorted_roots eigvals [] = [].
Proof.
  unfold sorted_roots, np_roots, np_r_1_neg. cbn [map lstrip0].
  destruct (Req_dec_T 1 0) as [H|_]; [lra|].
  cbn [rev app lstrip0].
  destruct (Req_dec_T 1 0) as [H|_]; [lra|].
  reflexivity.
Qed.

Section RootCount.

Variable eigvals : list (list R) -> list C.

(** LAPACK returns one eigenvalue per row of a square matrix. *)
Hypothesis eigvals_length : forall A, length (eigvals A) = length A.

Lemma np_roots_length thetap :
  length (np_roots eigvals (np_r_1_neg thetap)) = length thetap.
Proof.
  unfold np_roots, np_r_1_neg. cbn [lstrip0].
  destruct (Req_dec_T 1 0) as [H|_]; [lra|].
  set (q := 1 :: map Ropp thetap).
  assert (Hq : length q = S (length thetap)) by (unfold q; simpl; now rewrite length_map).
  set (core := rev (lstrip0 (rev q))).
  assert (Hc1 : (1 <= length core)%nat).
  { unfold core. rewrite length_rev. unfold q. simpl rev.
    pose proof (lstrip0_snoc_nonzero (rev (map Ropp thetap)) 1 R1_neq_R0) as Hne.
    destruct (lstrip0 _); [congruence | simpl; lia]. }
  assert (Hc2 : (length core <= length q)%nat).
  { unfold core. rewrite length_rev.
    etransitivity; [apply lstrip0_length_le | now rewrite length_rev]. }
  rewrite length_app, repeat_length.
  clearbody core q.
  destruct (1 <? length core)%nat eqn:Hlt.
  - apply Nat.ltb_lt in Hlt. rewrite eigvals_length, companion_length by assumption. lia.
  - apply Nat.ltb_ge in Hlt. simpl. lia.
Qed.

(** One pole per AR coefficient. *)
Lemma sorted_roots_length thetap :
  length (sorted_roots eigvals thetap) = length thetap.
Proof.
  unfold sorted_roots. now rewrite py_sorted_length, np_roots_length.
Qed.

Lemma sorted_roots_nonempty thetap :
  thetap <> [] -> sorted_roots eigvals thetap <> [].
Proof.
  intros H E. apply H. apply length_zero_iff_nil.
  rewrite <- sorted_roots_length, E. reflexivity.
Qed.

End RootCount.

Lemma eigvals_diag_length A : length (eigvals_diag A) = length A.
Proof. unfold eigvals_diag. now rewrite length_map, length_seq. Qed.

(** ** Small models, evaluated *)

Lemma np_mean_one : np_mean [1] = 1.
Proof. unfold np_mean. simpl. field. Qed.

Lemma np_roots_linear c :
  c <> 0 -> np_roots eigvals_diag (np_r_1_neg [c]) = [of_R c].
Proof.
  intros Hc. unfold np_roots, np_r_1_neg. cbn [map lstrip0].
  destruct (Req_dec_T 1 0) as [H|_]; [lra|].
  cbn [rev app lstrip0].
  destruct (Req_dec_T (- c) 0) as [H|_]; [lra|].
  cbn [rev app length Nat.ltb Nat.leb Nat.sub repeat].
  unfold eigvals_diag, companion.
  cbn [length Nat.sub seq map tl hd nth app].
  f_equal. unfold of_R. f_equal. field.
Qed.

Lemma sorted_roots_linear c :
  c <> 0 -> sorted_roots eigvals_diag [c] = [mkobj 0 (of_R c)].
Proof.
  intros Hc. unfold sorted_roots. rewrite np_roots_linear by exact Hc. reflexivity.
Qed.

Lemma max_abs_linear c :
  c <> 0 -> max_abs (sorted_roots eigvals_diag [c]) = Rabs c.
Proof.
  intros Hc. now rewrite sorted_roots_linear, max_abs_single, abs_of_R.
Qed.

(** A model of order one whose coefficient is inside the disk of radius 0.99
    gives a result. *)
Lemma psd_linear_returns c w k0 :
  c <> 0 -> Rabs c < 0.99 ->
  psd eigvals_diag (analyzer_of [c] w k0)
  = Returns (result_of eigvals_diag (analyzer_of [c] w k0) [c] w k0).
Proof.
  intros Hc Hlt. unfold psd. cbn [model theta wn k analyzer_of].
  apply compute_psd_returns; cbn [thetap_of analyzer_of model hasTheta0].
  - rewrite sorted_roots_linear by exact Hc. discriminate.
  - now rewrite max_abs_linear.
Qed.

Lemma psd_half_returns w k0 :
  psd eigvals_diag (analyzer_of [1 / 2] w k0)
  = Returns (result_of eigvals_diag (analyzer_of [1 / 2] w k0) [1 / 2] w k0).
Proof. apply psd_linear_returns; [lra | rewrite Rabs_right; lra]. Qed.

Lemma scale_factor_half : scale_factor eigvals_diag [1 / 2] = PyInt 1.
Proof.
  destruct (scale_factor_cases eigvals_diag [1 / 2]) as [[_ E] | [Hm _]]; [exact E|].
  rewrite max_abs_linear, Rabs_right in Hm; lra.
Qed.

Lemma stable_thetap_half : stable_thetap eigvals_diag [1 / 2] = [1 / 2].
Proof.
  unfold stable_thetap. rewrite scale_factor_half. now apply decay_thetap_one.
Qed.

(** The model [theta = [0, 0]]: two poles at the origin. *)
Lemma np_roots_two_zeros eigvals : np_roots eigvals (np_r_1_neg [0; 0]) = [C0; C0].
Proof.
  unfold np_roots, np_r_1_neg. cbn [map lstrip0].
  destruct (Req_dec_T 1 0) as [H|_]; [lra|].
  cbn [rev app lstrip0].
  destruct (Req_dec_T (- 0) 0) as [_|H]; [|lra].
  destruct (Req_dec_T 1 0) as [H|_]; [lra|].
  reflexivity.
Qed.

Lemma sorted_roots_two_zeros eigvals :
  sorted_roots eigvals [0; 0] = [mkobj 0 C0; mkobj 1 C0].
Proof.
  unfold sorted_roots. rewrite np_roots_two_zeros.
  unfold py_sorted, stable_sort. cbn [box_all fold_left insert_by oval].
  destruct (Rlt_dec _ _) as [H|_]; [exfalso; exact (Rlt_irrefl _ H) | reflexivity].
Qed.

Lemma max_abs_two_zeros eigvals : max_abs (sorted_roots eigvals [0; 0]) = 0.
Proof.
  rewrite sorted_roots_two_zeros. unfold max_abs.
  cbn [map py_max fold_left oval]. rewrite abs_C0.
  destruct (Rlt_dec 0 0); reflexivity.
Qed.

(** The model [theta = [1e-9, 0]]: the real poles [1e-9] and [0]. *)
Lemma np_roots_tiny :
  np_roots eigvals_diag (np_r_1_neg [1e-9; 0]) = [of_R 1e-9; C0].
Proof.
  unfold np_roots, np_r_1_neg. cbn [map lstrip0].
  destruct (Req_dec_T 1 0) as [H|_]; [lra|].
  cbn [rev app lstrip0].
  destruct (Req_dec_T (- 0) 0) as [_|H]; [|lra].
  destruct (Req_dec_T (Ropp 1e-9) 0) as [H|_]; [lra|].
  cbn [rev app length Nat.ltb Nat.leb Nat.sub repeat].
  unfold eigvals_diag, companion.
  cbn [length Nat.sub seq map tl hd nth app].
  f_equal. unfold of_R. f_equal. lra.
Qed.

Lemma sorted_roots_tiny :
  sorted_roots eigvals_diag [1e-9; 0] = [mkobj 0 (of_R 1e-9); mkobj 1 C0].
Proof.
  unfold sorted_roots. rewrite np_roots_tiny.
  unfold py_sorted, stable_sort. cbn [box_all fold_left insert_by oval].
  rewrite angle_C0, angle_of_R_pos by lra.
  destruct (Rlt_dec _ _) as [H|_]; [exfalso; exact (Rlt_irrefl _ H) | reflexivity].
Qed.

Lemma max_abs_tiny : max_abs (sorted_roots eigvals_diag [1e-9; 0]) = 1e-9.
Proof.
  rewrite sorted_roots_tiny. unfold max_abs.
  cbn [map py_max fold_left oval]. rewrite abs_C0, abs_of_R, Rabs_right by lra.
  destruct (Rlt_dec 1e-9 0); [lra | reflexivity].
Qed.

Lemma tiny_pole_is_close_to_zero : np_isclose C0 (conj (of_R 1e-9)) = true.
Proof.
  unfold np_isclose, C0. rewrite of_R_conj, of_R_sub, !abs_of_R.
  rewrite Rabs_left, Rabs_right by lra.
  destruct (Rle_dec _ _) as [_|H]; [reflexivity | exfalso; apply H; lra].
Qed.

(** ** The frequency grid *)

Lemma np_linspace_length start stop num : length (np_linspace start stop num) = num.
Proof.
  unfold np_linspace. destruct (1 <? num)%nat eqn:H.
  - apply Nat.ltb_lt in H. rewrite length_app, removelast_length, length_map, length_seq.
    simpl. lia.
  - now rewrite length_map, length_seq.
Qed.

Lemma np_linspace_nth start stop num i :
  (i < num - 1)%nat ->
  nth i (np_linspace start stop num) 0 = INR i * ((stop - start) / INR (num - 1)) + start.
Proof.
  intros Hi. unfold np_linspace.
  assert (H : (1 <? num)%nat = true) by (apply Nat.ltb_lt; lia).
  rewrite H. rewrite app_nth1 by (rewrite removelast_length, length_map, length_seq; lia).
  rewrite removelast_nth by (rewrite length_map, length_seq; lia).
  set (f := fun i0 : nat => _).
  rewrite (nth_indep _ 0 (f O)) by (rewrite length_map, length_seq; lia).
  rewrite map_nth, seq_nth by lia. reflexivity.
Qed.

Lemma np_linspace_last start stop num :
  (1 < num)%nat -> nth (num - 1) (np_linspace start stop num) 0 = stop.
Proof.
  intros Hn. unfold np_linspace.
  assert (H : (1 <? num)%nat = true) by (apply Nat.ltb_lt; lia).
  rewrite H. rewrite app_nth2 by (rewrite removelast_length, length_map, length_seq; lia).
  rewrite removelast_length, length_map, length_seq.
  replace (num - 1 - (num - 1))%nat with O by lia. reflexivity.
Qed.

Lemma fs_grid_length : length fs_grid = grid_size.
Proof. apply np_linspace_length. Qed.

Lemma z_grid_length : length z_grid = grid_size.
Proof. unfold z_grid. rewrite length_map. apply fs_grid_length. Qed.

Lemma INR_grid : INR (grid_size - 1) = 2047.
Proof. rewrite INR_IZR_INZ. reflexivity. Qed.

Lemma fs_grid_nth j :
  (j < grid_size)%nat -> nth j fs_grid 0 = -0.5 + INR j / 2047.
Proof.
  intros Hj. unfold fs_grid.
  destruct (Nat.eq_dec j (grid_size - 1)) as [->|Hne].
  - rewrite np_linspace_last by (unfold grid_size; lia).
    rewrite INR_grid. lra.
  - rewrite np_linspace_nth by lia. rewrite INR_grid. lra.
Qed.

(** [z = np.exp(2j * np.pi * fs)] is the point [e^{i 2 pi f}] of the unit circle. *)
Lemma np_exp_2j_pi f : np_exp (mul (0, 2 * PI) (of_R f)) = expi (2 * PI * f).
Proof.
  unfold np_exp, expi, scale, mul, of_R, re, im. cbn [fst snd].
  replace (0 * f - 2 * PI * 0) with 0 by ring.
  replace (0 * 0 + 2 * PI * f) with (2 * PI * f) by ring.
  rewrite exp_0. f_equal; ring.
Qed.

Lemma z_grid_nth j :
  (j < grid_size)%nat -> nth j z_grid C0 = expi (2 * PI * nth j fs_grid 0).
Proof.
  intros H. unfold z_grid.
  rewrite (map_nth_lt _ _ _ 0) by now rewrite fs_grid_length.
  apply np_exp_2j_pi.
Qed.

(** ** The power spectrum *)

Lemma horner_ar_terms w th : forall i B,
  norm2 w = 1 ->
  fold_left (fun y pv => (y * w + of_R pv)%cx) (map Ropp th) (pow w i * B)%cx
  = (pow w (i + length th) * (B - ar_terms th w (S i)))%cx.
Proof.
  induction th as [|t th IH]; intros i B Hw; cbn [map fold_left ar_terms length].
  - rewrite Nat.add_0_r. ring.
  - assert (Hinv : (pow w (S i) * inv (pow w (S i)))%cx = C1).
    { apply mul_inv_r. rewrite norm2_pow, Hw, pow1. lra. }
    replace (pow w i * B * w + of_R (- t))%cx
      with (pow w (S i) * (B - of_R t * inv (pow w (S i))))%cx.
    + rewrite IH by assumption.
      replace (S i + length th)%nat with (i + S (length th))%nat by lia.
      ring.
    + transitivity (pow w (S i) * B - of_R t * (pow w (S i) * inv (pow w (S i))))%cx;
        [ring|].
      rewrite Hinv. simpl pow. apply C_eq; cx_simpl; ring.
Qed.

(** On the unit circle [np.polyval] of [[1, -th1, ..., -thp]] is [w^p A(w)]. *)
Lemma np_polyval_A_spec th w :
  norm2 w = 1 ->
  np_polyval (np_r_1_neg th) w = (pow w (length th) * A_spec th w)%cx.
Proof.
  intros Hw. unfold np_polyval, np_r_1_neg, A_spec. cbn [fold_left].
  replace (C0 * w + of_R 1)%cx with (pow w 0 * C1)%cx
    by (simpl; apply C_eq; cx_simpl; ring).
  now rewrite horner_ar_terms.
Qed.

Lemma abs_polyval_A_spec th w :
  norm2 w = 1 ->
  abs (np_polyval (np_r_1_neg th) w) = abs (A_spec th w).
Proof.
  intros Hw. rewrite np_polyval_A_spec by assumption.
  rewrite abs_mul. unfold abs at 1. rewrite norm2_pow, Hw, pow1, sqrt_1. ring.
Qed.

Lemma spectrum_scale_value w k0 :
  variance w k0 / sampling_rate w = 1e6 * np_mean w ^ 4 / k0.
Proof.
  unfold variance, sampling_rate, Rdiv.
  replace (1 * / np_mean w) with (/ np_mean w) by ring.
  rewrite Rinv_inv. ring.
Qed.

Section PowerSpectrum.

Variable eigvals : list (list R) -> list C.

(** C1: on a valid input every entry of the power array that [psd] returns is
    [(variance / sampling_rate) / |A(conj z)|^2], with
    [variance = 1e6 * mean(wn)^3 / k], [sampling_rate = 1 / mean(wn)], [A] the
    polynomial [1 - th1 z^-1 - ... - thp z^-p] of the AR coefficients after the
    stability correction and [z = e^{i 2 pi f}] for the entry's normalized
    grid frequency [f]. *)
Theorem power_is_ar_spectrum (self : SpectralAnalyzer) (res : SpectralAnalysis) :
  wn (model self) <> [] ->
  0 < k (model self) ->
  thetap_of self (theta (model self)) <> [] ->
  psd eigvals self = Returns res ->
  length (powers res) = grid_size
  /\ forall j, (j < grid_size)%nat ->
       let variance := 1e6 * np_mean (wn (model self)) ^ 3 / k (model self) in
       let sampling_rate := 1 / np_mean (wn (model self)) in
       let th := stable_thetap eigvals (thetap_of self (theta (model self))) in
       let z := expi (2 * PI * nth j fs_grid 0) in
       nth j (powers res) 0
       = (variance / sampling_rate) / abs (A_spec th (conj z)) ^ 2.
Proof.
  intros _ _ _ Hret. unfold psd in Hret.
  apply compute_psd_returns_inv in Hret. destruct Hret as (-> & _).
  cbn [powers result_of]. split.
  - rewrite length_map. apply z_grid_length.
  - intros j Hj. cbv zeta.
    rewrite (map_nth_lt _ _ _ C0) by now rewrite z_grid_length.
    rewrite z_grid_nth by exact Hj.
    rewrite abs_polyval_A_spec by (rewrite norm2_conj; apply norm2_expi).
    unfold variance, sampling_rate. f_equal. f_equal. unfold Rdiv. ring.
Qed.

(** C9 (as the code has it): the entries of the power array are reals, and
    when [wn] is not empty and the sample count [k] is positive each of them
    is non-negative.  (On an empty [wn] the mean interval, and with it every
    entry, is numpy's nan.) *)
Theorem powers_nonnegative (self : SpectralAnalyzer) (res : SpectralAnalysis) :
  wn (model self) <> [] ->
  psd eigvals self = Returns res ->
  0 < k (model self) ->
  Forall (fun p => 0 <= p) (powers res).
Proof.
  intros _ Hret Hk. unfold psd in Hret.
  apply compute_psd_returns_inv in Hret. destruct Hret as (-> & _).
  cbn [powers result_of]. rewrite Forall_map. apply Forall_forall. intros zj _.
  apply Rdiv_nonneg.
  - rewrite spectrum_scale_value. apply Rdiv_nonneg; [|lra].
    assert (0 <= np_mean (wn (model self)) ^ 4).
    { replace (np_mean (wn (model self)) ^ 4)
        with (Rsqr (Rsqr (np_mean (wn (model self))))) by (unfold Rsqr; ring).
      apply Rle_0_sqr. }
    lra.
  - rewrite abs_sqr. apply norm2_nonneg.
Qed.

(** C8 (as the code has it): the returned frequency array has exactly 2048
    entries, entry [j] being [(-0.5 + j / 2047) * sampling_rate]; the grid is
    linear from [-0.5 * sampling_rate] to [+0.5 * sampling_rate] and contains
    both end points. *)
Theorem frequencies_span_closed_band (self : SpectralAnalyzer) (res : SpectralAnalysis) :
  psd eigvals self = Returns res ->
  length (frequencies res) = 2048%nat
  /\ (forall j, (j < 2048)%nat ->
        nth j (frequencies res) 0
        = (-0.5 + INR j / 2047) * sampling_rate (wn (model self)))
  /\ nth 0 (frequencies res) 0 = -0.5 * sampling_rate (wn (model self))
  /\ nth 2047 (frequencies res) 0 = 0.5 * sampling_rate (wn (model self)).
Proof.
  intros Hret. unfold psd in Hret.
  apply compute_psd_returns_inv in Hret. destruct Hret as (-> & _).
  cbn [frequencies result_of].
  assert (Hnth : forall j, (j < 2048)%nat ->
            nth j (map (fun f => f * sampling_rate (wn (model self))) fs_grid) 0
            = (-0.5 + INR j / 2047) * sampling_rate (wn (model self))).
  { intros j Hj. rewrite (map_nth_lt _ _ _ 0) by (rewrite fs_grid_length; exact Hj).
    now rewrite fs_grid_nth by exact Hj. }
  split; [|split; [exact Hnth | split]].
  - rewrite length_map. apply fs_grid_length.
  - rewrite Hnth by lia. simpl INR. lra.
  - rewrite Hnth by lia. rewrite INR_IZR_INZ.
    change (IZR (Z.of_nat 2047)) with 2047. lra.
Qed.

End PowerSpectrum.

Lemma power_is_ar_spectrum_witness :
  psd eigvals_diag (analyzer_of [1 / 2] [1] 1)
  = Returns (result_of eigvals_diag (analyzer_of [1 / 2] [1] 1) [1 / 2] [1] 1)
  /\ length (powers (result_of eigvals_diag (analyzer_of [1 / 2] [1] 1) [1 / 2] [1] 1))
     = grid_size.
Proof.
  split; [apply psd_half_returns|].
  apply (power_is_ar_spectrum eigvals_diag (analyzer_of [1 / 2] [1] 1)); cbn.
  - discriminate.
  - lra.
  - discriminate.
  - apply psd_half_returns.
Defined.

Lemma powers_nonnegative_witness :
  psd eigvals_diag (analyzer_of [1 / 2] [1] 1)
  = Returns (result_of eigvals_diag (analyzer_of [1 / 2] [1] 1) [1 / 2] [1] 1)
  /\ Forall (fun p => 0 <= p)
       (powers (result_of eigvals_diag (analyzer_of [1 / 2] [1] 1) [1 / 2] [1] 1)).
Proof.
  split; [apply psd_half_returns|].
  apply (powers_nonnegative eigvals_diag (analyzer_of [1 / 2] [1] 1)).
  - cbn. discriminate.
  - apply psd_half_returns.
  - cbn. lra.
Defined.

(** C9 as stated fails: a negative sample count makes the variance negative,
    and with it the entries of the power array.  Here the first entry is
    [-1e6 / |conj z - 1/2|^2]. *)
Lemma negative_k_gives_negative_power :
  exists res,
    psd eigvals_diag (analyzer_of [1 / 2] [1] (-1)) = Returns res
    /\ nth 0 (powers res) 0 < 0.
Proof.
  eexists. split; [apply psd_half_returns|].
  cbn [powers result_of thetap_of analyzer_of model hasTheta0].
  rewrite (map_nth_lt _ _ _ C0) by (rewrite z_grid_length; unfold grid_size; lia).
  rewrite stable_thetap_half, spectrum_scale_value, np_mean_one, abs_sqr.
  assert (Hw : norm2 (conj (nth 0 z_grid C0)) = 1).
  { rewrite norm2_conj, z_grid_nth by (unfold grid_size; lia). apply norm2_expi. }
  destruct (conj (nth 0 z_grid C0)) as [a b].
  unfold np_polyval, np_r_1_neg. cbn [map fold_left].
  assert (Hden : 0 < norm2 ((C0 * (a, b) + of_R 1) * (a, b) + of_R (- (1 / 2)))%cx).
  { cx_simpl. nra. }
  assert (Hinv := Rinv_0_lt_compat _ Hden).
  unfold Rdiv. nra.
Qed.

Lemma frequencies_span_closed_band_witness :
  psd eigvals_diag (analyzer_of [1 / 2] [1] 1)
  = Returns (result_of eigvals_diag (analyzer_of [1 / 2] [1] 1) [1 / 2] [1] 1)
  /\ nth 2047 (frequencies (result_of eigvals_diag (analyzer_of [1 / 2] [1] 1)
                              [1 / 2] [1] 1)) 0
     = 0.5 * sampling_rate [1].
Proof.
  split; [apply psd_half_returns|].
  apply (frequencies_span_closed_band eigvals_diag (analyzer_of [1 / 2] [1] 1)).
  apply psd_half_returns.
Defined.

(** C8 as stated fails: the right end point [+0.5 * sampling_rate] (here 0.5,
    the sampling rate being 1) is the last entry of the returned grid. *)
Lemma right_endpoint_is_on_the_grid :
  exists res,
    psd eigvals_diag (analyzer_of [1 / 2] [1] 1) = Returns res
    /\ sampling_rate [1] = 1
    /\ In (0.5 * sampling_rate [1]) (frequencies res).
Proof.
  eexists. split; [apply psd_half_returns|].
  split; [unfold sampling_rate; rewrite np_mean_one; lra|].
  cbn [frequencies result_of].
  apply in_map_iff. exists 0.5. split; [reflexivity|].
  unfold fs_grid.
  rewrite <- (np_linspace_last (-0.5) 0.5 grid_size) at 1 by (unfold grid_size; lia).
  apply nth_In. rewrite np_linspace_length. unfold grid_size. lia.
Qed.

(** ** The stability correction *)

Section Stabilization.

Variable eigvals : list (list R) -> list C.

(** C3 fails on the code wherever the correction is needed.  When some root
    has modulus 0.99 or more, the code does compute the factor of the claim,
    [s = min(0.99 / max_i |pole_i|, 1) = 0.99 / max_i |pole_i|], at most 1, but
    as a numpy float; [mod_scale * poles_values] then multiplies the Python
    list that [sorted] returned by it, and the call ends with [TypeError]
    before any pole position or AR coefficient is scaled.  No result is
    returned, with poles of modulus at most 0.99 or otherwise.  The next
    line, which is not reached, is written as the claim has it: it would
    multiply coefficient [i] by [s^i]. *)
Theorem needed_correction_raises_TypeError (self : SpectralAnalyzer) :
  let thetap := thetap_of self (theta (model self)) in
  let m := max_abs (sorted_roots eigvals thetap) in
  sorted_roots eigvals thetap <> [] ->
  0.99 <= m ->
  decay_factor m = 0.99 / m
  /\ decay_factor m <= 1
  /\ scale_factor eigvals thetap = NpFloat64 (decay_factor m)
  /\ py_mul_seq (scale_factor eigvals thetap) (sorted_roots eigvals thetap)
     = Raises "TypeError"%string
  /\ psd eigvals self = Raises "TypeError"%string
  /\ (forall res, psd eigvals self <> Returns res)
  /\ (forall i, (i < length thetap)%nat ->
        nth i (decay_thetap thetap (scale_factor eigvals thetap)) 0
        = nth i thetap 0 * decay_factor m ^ (S i)).
Proof.
  intros thetap m Hne Hm.
  assert (Hq : 0.99 / m <= 1).
  { apply Rmult_le_reg_r with m; [lra|].
    replace (0.99 / m * m) with 0.99 by (field; lra). lra. }
  assert (Hd : decay_factor m = 0.99 / m).
  { unfold decay_factor. destruct (Req_dec_T m 0) as [Hz|_]; [lra|].
    now apply Rmin_left. }
  assert (E : scale_factor eigvals thetap = NpFloat64 (0.99 / m)).
  { destruct (scale_factor_cases eigvals thetap) as [[Hlt _] | [_ E]].
    - fold m in Hlt. lra.
    - exact E. }
  assert (Hpsd : psd eigvals self = Raises "TypeError"%string)
    by (unfold psd; now apply compute_psd_unstable).
  split; [exact Hd|]. split; [now rewrite Hd|]. split; [now rewrite Hd|].
  split; [now rewrite E|]. split; [exact Hpsd|]. split.
  - intros res Hres. rewrite Hpsd in Hres. discriminate.
  - intros i Hi. rewrite decay_thetap_nth by exact Hi.
    now rewrite E, Hd.
Qed.

(** Where every root has modulus below 0.99 the correction changes nothing:
    the factor is 1, and the pole positions and the AR coefficients that the
    spectrum, the residues and the contributions are computed from are the
    unscaled ones. *)
Lemma stable_input_is_untouched (self : SpectralAnalyzer) :
  let thetap := thetap_of self (theta (model self)) in
  thetap <> [] ->
  (forall A, length (eigvals A) = length A) ->
  Forall (fun r => abs r < 0.99) (np_roots eigvals (np_r_1_neg thetap)) ->
  psd eigvals self
  = Returns (result_of eigvals self (theta (model self)) (wn (model self)) (k (model self)))
  /\ num_val (scale_factor eigvals thetap) = 1
  /\ stable_poles eigvals thetap = sorted_roots eigvals thetap
  /\ stable_thetap eigvals thetap = thetap.
Proof.
  intros thetap Hth Hlen Hstable.
  pose proof (sorted_roots_nonempty eigvals Hlen thetap Hth) as Hne.
  destruct (max_abs_spec _ Hne) as [_ Hin].
  assert (Hm : max_abs (sorted_roots eigvals thetap) < 0.99).
  { apply in_map_iff in Hin. destruct Hin as [o [<- Ho]].
    rewrite Forall_forall in Hstable. apply Hstable.
    apply (py_sorted_In (fun x => Rabs (angle x))). apply in_map. exact Ho. }
  destruct (scale_factor_cases eigvals thetap) as [[_ E] | [Hge _]]; [|lra].
  split; [unfold psd; now apply compute_psd_returns|].
  split; [now rewrite E|]. split; [now apply stable_poles_list|].
  unfold stable_thetap. rewrite E. now apply decay_thetap_one.
Qed.

End Stabilization.

(** The model [theta = [2]]: its root 2 lies outside the unit circle, the
    factor is [0.99 / 2], and [psd] raises where the claim has it return the
    pole 0.99. *)
Lemma needed_correction_raises_TypeError_witness :
  decay_factor (max_abs (sorted_roots eigvals_diag [2])) = 0.99 / 2
  /\ psd eigvals_diag (analyzer_of [2] [1] 1) = Raises "TypeError"%string.
Proof.
  assert (Hm : max_abs (sorted_roots eigvals_diag [2]) = 2)
    by (rewrite max_abs_linear, Rabs_right; lra).
  destruct (needed_correction_raises_TypeError eigvals_diag (analyzer_of [2] [1] 1))
    as (Hd & _ & _ & _ & Hpsd & _ & _).
  - cbn [thetap_of analyzer_of model hasTheta0 theta].
    rewrite sorted_roots_linear by lra. discriminate.
  - cbn [thetap_of analyzer_of model hasTheta0 theta]. rewrite Hm. lra.
  - cbn [thetap_of analyzer_of model hasTheta0 theta] in Hd.
    split; [|exact Hpsd]. rewrite Hd, Hm. reflexivity.
Defined.

(** C10 fails on the code at the boundary.  The model [theta = [0.99]] has the
    single root 0.99, of modulus at most 0.99.  [0.99 / 0.99] is the numpy
    float 1.0, [min(1.0, 1)] keeps it, and [mod_scale * poles_values]
    multiplies a list by a numpy float: the call ends with [TypeError] where
    the correction should have left everything in place. *)
Theorem root_of_modulus_099_raises_TypeError :
  Forall (fun r => abs r <= 0.99) (np_roots eigvals_diag (np_r_1_neg [0.99]))
  /\ scale_factor eigvals_diag [0.99] = NpFloat64 (0.99 / 0.99)
  /\ num_val (scale_factor eigvals_diag [0.99]) = 1
  /\ psd eigvals_diag (analyzer_of [0.99] [1] 1) = Raises "TypeError"%string.
Proof.
  assert (Hm : max_abs (sorted_roots eigvals_diag [0.99]) = 0.99)
    by (rewrite max_abs_linear, Rabs_right; lra).
  assert (E : scale_factor eigvals_diag [0.99] = NpFloat64 (0.99 / 0.99)).
  { destruct (scale_factor_cases eigvals_diag [0.99]) as [[Hlt _] | [_ E]].
    - rewrite Hm in Hlt. lra.
    - now rewrite Hm in E. }
  split; [|split; [exact E | split]].
  - rewrite np_roots_linear by lra. constructor; [|constructor].
    rewrite abs_of_R, Rabs_right; lra.
  - rewrite E. cbn [num_val]. lra.
  - unfold psd. cbn [model theta wn k analyzer_of].
    apply compute_psd_unstable; cbn [thetap_of analyzer_of model hasTheta0].
    + rewrite sorted_roots_linear by lra. discriminate.
    + rewrite Hm. lra.
Qed.

(** The same happens to every model that needs the correction. *)
Lemma unstable_model_raises_TypeError :
  psd eigvals_diag (analyzer_of [2] [1] 1) = Raises "TypeError"%string.
Proof.
  unfold psd. cbn [model theta wn k analyzer_of].
  apply compute_psd_unstable; cbn [thetap_of analyzer_of model hasTheta0].
  - rewrite sorted_roots_linear by lra. discriminate.
  - rewrite max_abs_linear, Rabs_right by lra. lra.
Qed.

(** ** Errors *)

(** C5 (as the code has it): when no AR coefficient is left after the intercept
    is removed, [np.roots] finds no pole, the builtin [max] is called on an
    empty sequence and the call ends with Python's [ValueError]; nothing is
    returned. *)
Theorem empty_thetap_raises_ValueError eigvals self :
  thetap_of self (theta (model self)) = [] ->
  psd eigvals self = Raises "ValueError"%string.
Proof.
  intros H. unfold psd. rewrite compute_psd_unfold, H, sorted_roots_nil.
  reflexivity.
Qed.

Lemma empty_thetap_raises_ValueError_witness :
  psd eigvals_diag (mkAnalyzer (mkModel [10] [1] 1 true) true)
  = Raises "ValueError"%string.
Proof.
  apply (empty_thetap_raises_ValueError eigvals_diag
           (mkAnalyzer (mkModel [10] [1] 1 true) true)).
  reflexivity.
Defined.

(** C5 as stated fails: on an empty coefficient sequence the exception is not a
    [DegenerateModelError]. *)
Lemma empty_thetap_not_DegenerateModelError :
  psd eigvals_diag (analyzer_of [] [1] 1) = Raises "ValueError"%string
  /\ psd eigvals_diag (analyzer_of [] [1] 1) <> Raises "DegenerateModelError"%string.
Proof.
  assert (H : psd eigvals_diag (analyzer_of [] [1] 1) = Raises "ValueError"%string).
  { unfold psd. rewrite compute_psd_unfold.
    cbn [model theta thetap_of hasTheta0 analyzer_of].
    now rewrite sorted_roots_nil. }
  split; [exact H | rewrite H; discriminate].
Qed.

Section SampleCount.

Variable eigvals : list (list R) -> list C.
Hypothesis eigvals_length : forall A, length (eigvals A) = length A.

(** C7 (as the code has it): the sample count is not checked.  [k] is only the
    divisor of the variance quotient [mean_interval ** 3 / k]; for [k <= 0]
    too [psd] returns a result as soon as there is an AR coefficient and every
    root has modulus below 0.99, and no call ever ends with an
    [InvalidSampleCountError]. *)
Theorem nonpositive_k_still_returns (self : SpectralAnalyzer) :
  k (model self) <= 0 ->
  thetap_of self (theta (model self)) <> [] ->
  Forall (fun r => abs r < 0.99)
    (np_roots eigvals (np_r_1_neg (thetap_of self (theta (model self))))) ->
  (exists res, psd eigvals self = Returns res)
  /\ psd eigvals self <> Raises "InvalidSampleCountError"%string
  /\ variance (wn (model self)) (k (model self))
     = 1e6 * (np_mean (wn (model self)) ^ 3 / k (model self)).
Proof.
  intros _ Hth Hstable.
  destruct (stable_input_is_untouched eigvals self Hth eigvals_length Hstable)
    as (Hret & _).
  split; [eexists; exact Hret|]. split; [rewrite Hret; discriminate | reflexivity].
Qed.

End SampleCount.

Lemma half_root_is_stable :
  Forall (fun r => abs r < 0.99) (np_roots eigvals_diag (np_r_1_neg [1 / 2])).
Proof.
  rewrite np_roots_linear by lra. constructor; [|constructor].
  rewrite abs_of_R, Rabs_right; lra.
Qed.

Lemma nonpositive_k_still_returns_witness :
  exists res, psd eigvals_diag (analyzer_of [1 / 2] [1] (-1)) = Returns res.
Proof.
  apply (nonpositive_k_still_returns eigvals_diag eigvals_diag_length
           (analyzer_of [1 / 2] [1] (-1))); cbn.
  - lra.
  - discriminate.
  - exact half_root_is_stable.
Defined.

(** C7 as stated fails: with [k = 0] the call returns a result; no
    [InvalidSampleCountError], nor any other exception, reaches the caller. *)
Lemma zero_k_returns :
  psd eigvals_diag (analyzer_of [1 / 2] [1] 0)
  = Returns (result_of eigvals_diag (analyzer_of [1 / 2] [1] 0) [1 / 2] [1] 0)
  /\ psd eigvals_diag (analyzer_of [1 / 2] [1] 0)
     <> Raises "InvalidSampleCountError"%string.
Proof.
  split; [apply psd_half_returns | rewrite psd_half_returns; discriminate].
Qed.

(** ** The residues *)

Lemma poles_residuals_dens l :
  poles_residuals_of l = map (fun d => (C1 / d)%cx) (residual_dens_of l).
Proof. unfold poles_residuals_of, residual_dens_of. now rewrite map_map. Qed.

(** With pairwise distinct identities, [val is not p] leaves out the position
    of [p] and nothing else. *)
Lemma filter_other_oids xs : forall i,
  NoDup (map oid xs) -> (i < length xs)%nat ->
  map oval (filter (fun val => negb (oid val =? oid (nth i xs (mkobj 0 C0)))%nat) xs)
  = remove_nth i (map oval xs).
Proof.
  induction xs as [|a t IH]; intros i Hnd Hi; [simpl in Hi; lia|].
  cbn [map] in Hnd. apply NoDup_cons_iff in Hnd. destruct Hnd as [Ha Hnd].
  destruct i as [|i]; cbn [nth filter map remove_nth].
  - rewrite Nat.eqb_refl. cbn [negb]. f_equal. apply filter_all.
    intros x Hx. apply negb_true_iff, Nat.eqb_neq. intros E. apply Ha.
    rewrite <- E. now apply in_map.
  - simpl in Hi.
    assert (Hne : (oid a =? oid (nth i t (mkobj 0 C0)))%nat = false).
    { apply Nat.eqb_neq. intros E. apply Ha. rewrite E. apply in_map, nth_In. lia. }
    rewrite Hne. cbn [negb map]. f_equal. apply IH; [exact Hnd | lia].
Qed.

Lemma poles_residuals_spec l i :
  NoDup (map oid l) -> (i < length l)%nat ->
  nth i (poles_residuals_of l) C0 = residue_spec (map oval l) i.
Proof.
  intros Hnd Hi. unfold poles_residuals_of.
  rewrite (map_nth_lt _ _ _ (mkobj 0 C0)) by exact Hi. cbv zeta.
  rewrite filter_other_oids by assumption.
  unfold residue_spec, residual_den.
  rewrite (map_nth_lt _ _ _ (mkobj 0 C0)) by exact Hi. reflexivity.
Qed.

Lemma residual_den_zero p others all :
  In p others -> residual_den p others all = C0.
Proof.
  intros H. unfold residual_den.
  rewrite (prod_zero (map (fun v => (p - v)%cx) others)).
  - ring.
  - apply in_map_iff. exists p. split; [apply sub_diag | exact H].
Qed.

Lemma residual_dens_coincident l i j :
  NoDup (map oid l) ->
  (i < length l)%nat -> (j < length l)%nat -> i <> j ->
  nth i (map oval l) C0 = nth j (map oval l) C0 ->
  nth i (residual_dens_of l) C1 = C0.
Proof.
  intros Hnd Hi Hj Hij Heq. unfold residual_dens_of.
  rewrite (map_nth_lt _ _ _ (mkobj 0 C0)) by exact Hi. cbv zeta.
  rewrite !(map_nth_lt _ _ _ (mkobj 0 C0)) in Heq by assumption.
  apply residual_den_zero. rewrite Heq. apply in_map. apply filter_In. split.
  - now apply nth_In.
  - apply negb_true_iff, Nat.eqb_neq. intros Hoid. apply Hij.
    rewrite (NoDup_nth _ O) in Hnd. symmetry. apply (Hnd j i).
    + now rewrite length_map.
    + now rewrite length_map.
    + rewrite !(map_nth_lt _ _ _ (mkobj 0 C0)) by assumption. exact Hoid.
Qed.

Section Residues.

Variable eigvals : list (list R) -> list C.

(** C2: on a valid input whose characteristic polynomial has pairwise distinct
    roots, the residue stored on the pole of index [i] of the returned list is
    [1 / (p_i * prod_{j <> i} (p_i - p_j) * prod_j (1 / p_i - conj p_j))], the
    products being taken over the returned pole positions. *)
Theorem residues_follow_product_formula (self : SpectralAnalyzer) (res : SpectralAnalysis) :
  psd eigvals self = Returns res ->
  NoDup (np_roots eigvals (np_r_1_neg (thetap_of self (theta (model self))))) ->
  forall i, (i < length (poles res))%nat ->
    nth i (map residual (poles res)) C0 = residue_spec (map pos (poles res)) i.
Proof.
  intros Hret _ i Hi. unfold psd in Hret.
  apply compute_psd_returns_inv in Hret. destruct Hret as (-> & _ & _ & E).
  destruct (result_poles eigvals self (theta (model self)) (wn (model self))
              (k (model self)) E) as (Hpos & Hres & Hlen).
  rewrite Hlen in Hi. rewrite Hpos, Hres.
  apply poles_residuals_spec; [apply py_sorted_oids | exact Hi].
Qed.

(** C6 (as the code has it): coincident poles are not detected.  Whenever [psd]
    returns, the residual stored on a pole is the quotient of 1 by the product
    of the formula, and when two returned poles have the same position that
    product is zero for each of them; no exception is raised. *)
Theorem coincident_poles_are_not_detected (self : SpectralAnalyzer) (res : SpectralAnalysis) :
  psd eigvals self = Returns res ->
  exists dens,
    map residual (poles res) = map (fun d => (C1 / d)%cx) dens
    /\ length dens = length (poles res)
    /\ forall i j,
         (i < length (poles res))%nat -> (j < length (poles res))%nat -> i <> j ->
         nth i (map pos (poles res)) C0 = nth j (map pos (poles res)) C0 ->
         nth i dens C1 = C0.
Proof.
  intros Hret. unfold psd in Hret.
  apply compute_psd_returns_inv in Hret. destruct Hret as (-> & _ & _ & E).
  destruct (result_poles eigvals self (theta (model self)) (wn (model self))
              (k (model self)) E) as (Hpos & Hres & Hlen).
  set (l := sorted_roots eigvals (thetap_of self (theta (model self)))) in *.
  exists (residual_dens_of l). split; [now rewrite Hres, poles_residuals_dens|].
  split; [unfold residual_dens_of; now rewrite length_map, Hlen|].
  intros i j Hi Hj Hij Heq. rewrite Hpos in Heq. rewrite Hlen in Hi, Hj.
  apply (residual_dens_coincident l i j); try assumption.
  apply py_sorted_oids.
Qed.

End Residues.

Lemma residues_follow_product_formula_witness :
  psd eigvals_diag (analyzer_of [1 / 2] [1] 1)
  = Returns (result_of eigvals_diag (analyzer_of [1 / 2] [1] 1) [1 / 2] [1] 1)
  /\ NoDup (np_roots eigvals_diag (np_r_1_neg [1 / 2]))
  /\ forall i,
       Nat.lt i (length (poles (result_of eigvals_diag (analyzer_of [1 / 2] [1] 1)
                                  [1 / 2] [1] 1))) ->
       nth i (map residual (poles (result_of eigvals_diag (analyzer_of [1 / 2] [1] 1)
                                     [1 / 2] [1] 1))) C0
       = residue_spec (map pos (poles (result_of eigvals_diag (analyzer_of [1 / 2] [1] 1)
                                         [1 / 2] [1] 1))) i.
Proof.
  assert (Hnd : NoDup (np_roots eigvals_diag (np_r_1_neg [1 / 2]))).
  { rewrite np_roots_linear by lra. constructor; [intros [] | constructor]. }
  split; [apply psd_half_returns|]. split; [exact Hnd|].
  apply (residues_follow_product_formula eigvals_diag (analyzer_of [1 / 2] [1] 1)).
  - apply psd_half_returns.
  - exact Hnd.
Defined.

Lemma psd_two_zeros_returns :
  psd eigvals_diag (analyzer_of [0; 0] [1] 1)
  = Returns (result_of eigvals_diag (analyzer_of [0; 0] [1] 1) [0; 0] [1] 1).
Proof.
  unfold psd. cbn [model theta wn k analyzer_of].
  apply compute_psd_returns; cbn [thetap_of analyzer_of model hasTheta0].
  - rewrite sorted_roots_two_zeros. discriminate.
  - rewrite max_abs_two_zeros. lra.
Qed.

Lemma coincident_poles_are_not_detected_witness :
  exists dens,
    map residual (poles (result_of eigvals_diag (analyzer_of [0; 0] [1] 1) [0; 0] [1] 1))
    = map (fun d => (C1 / d)%cx) dens
    /\ nth 0 dens C1 = C0.
Proof.
  destruct (coincident_poles_are_not_detected eigvals_diag _ _ psd_two_zeros_returns)
    as (dens & H1 & H2 & H3).
  exists dens. split; [exact H1|].
  assert (E : scale_factor eigvals_diag [0; 0] = PyInt 1).
  { destruct (scale_factor_cases eigvals_diag [0; 0]) as [[_ E] | [Hm _]]; [exact E|].
    rewrite max_abs_two_zeros in Hm. lra. }
  destruct (result_poles eigvals_diag (analyzer_of [0; 0] [1] 1) [0; 0] [1] 1 E)
    as (Hpos & _ & Hlen).
  cbn [thetap_of analyzer_of model hasTheta0] in Hpos, Hlen.
  rewrite sorted_roots_two_zeros in Hpos, Hlen.
  apply (H3 0%nat 1%nat); rewrite ?Hlen, ?Hpos; simpl; try lia; reflexivity.
Defined.

(** C6 as stated fails: the two poles of the model [theta = [0, 0]] are both at
    the origin, and the call returns a result; no [SingularPoleError] is
    raised. *)
Lemma identical_poles_return :
  exists res,
    psd eigvals_diag (analyzer_of [0; 0] [1] 1) = Returns res
    /\ map pos (poles res) = [C0; C0]
    /\ psd eigvals_diag (analyzer_of [0; 0] [1] 1) <> Raises "SingularPoleError"%string.
Proof.
  eexists. split; [exact psd_two_zeros_returns|].
  split; [|rewrite psd_two_zeros_returns; discriminate].
  assert (E : scale_factor eigvals_diag [0; 0] = PyInt 1).
  { destruct (scale_factor_cases eigvals_diag [0; 0]) as [[_ E] | [Hm _]]; [exact E|].
    rewrite max_abs_two_zeros in Hm. lra. }
  destruct (result_poles eigvals_diag (analyzer_of [0; 0] [1] 1) [0; 0] [1] 1 E)
    as (Hpos & _ & _).
  cbn [thetap_of analyzer_of model hasTheta0] in Hpos.
  now rewrite Hpos, sorted_roots_two_zeros.
Qed.

(** ** The number of contribution arrays *)

Lemma merges_cons2 a b t :
  merges (a :: b :: t)
  = ((if np_isclose b (conj a) then 1 else 0) + merges (b :: t))%nat.
Proof. reflexivity. Qed.

Lemma add_to_last_length agg c : agg <> [] -> length (add_to_last agg c) = length agg.
Proof.
  intros H. unfold add_to_last. rewrite length_app, removelast_length. simpl.
  destruct agg; [congruence | simpl; lia].
Qed.

Lemma aggregate_loop_length rest : forall prev agg,
  agg <> [] ->
  (length (aggregate_loop prev rest agg) + merges (prev :: map fst rest)
   = length agg + length rest)%nat.
Proof.
  induction rest as [|[p c] rest IH]; intros prev agg Hne.
  - simpl. lia.
  - cbn [aggregate_loop map fst length].
    rewrite merges_cons2.
    destruct (np_isclose p (conj prev)).
    + assert (Hne' : add_to_last agg c <> [])
        by (unfold add_to_last; intros E; apply app_eq_nil in E; destruct E; discriminate).
      pose proof (IH p _ Hne') as H. rewrite add_to_last_length in H by exact Hne. lia.
    + assert (Hne' : agg ++ [c] <> [])
        by (intros E; apply app_eq_nil in E; destruct E; discriminate).
      pose proof (IH p _ Hne') as H. rewrite length_app in H. cbn [length] in H. lia.
Qed.

Lemma agg_comps_length eigvals thetap w k0 :
  stable_poles eigvals thetap <> [] ->
  (length (agg_comps eigvals thetap w k0) + merges (map oval (stable_poles eigvals thetap))
   = length (stable_poles eigvals thetap))%nat.
Proof.
  intros Hne. unfold agg_comps.
  pose proof (plain_comps_length eigvals thetap w k0) as Hpc.
  destruct (stable_poles eigvals thetap) as [|o os]; [congruence|].
  destruct (plain_comps eigvals thetap w k0) as [|c0 cs]; [discriminate|].
  cbn [map hd tl length] in *.
  pose proof (aggregate_loop_length (combine (map oval os) cs) (oval o) [c0]) as H.
  rewrite map_fst_combine in H by (rewrite length_map; congruence).
  rewrite H by discriminate. rewrite length_combine, length_map. simpl. lia.
Qed.

Lemma merges_le ps : (merges ps <= length ps - 1)%nat.
Proof.
  induction ps as [|a [|b t] IH]; try (simpl; lia).
  rewrite merges_cons2. cbn [length] in *.
  destruct (np_isclose b (conj a)); lia.
Qed.

Lemma merges_pos ps : forall i,
  (S i < length ps)%nat ->
  np_isclose (nth (S i) ps C0) (conj (nth i ps C0)) = true ->
  (1 <= merges ps)%nat.
Proof.
  induction ps as [|a [|b t] IH]; intros i Hi Hc; simpl in Hi; try lia.
  rewrite merges_cons2. destruct i as [|i].
  - cbn [nth] in Hc. rewrite Hc. lia.
  - assert (1 <= merges (b :: t))%nat by (apply (IH i); [simpl; lia | exact Hc]). lia.
Qed.

Lemma merges_none ps :
  (forall i, (S i < length ps)%nat ->
     np_isclose (nth (S i) ps C0) (conj (nth i ps C0)) = false) ->
  merges ps = O.
Proof.
  induction ps as [|a [|b t] IH]; intros H; try reflexivity.
  rewrite merges_cons2. pose proof (H O) as H0. cbn [nth length] in H0.
  rewrite H0 by lia. apply IH. intros i Hi. apply (H (S i)). simpl in *. lia.
Qed.

Lemma np_isclose_refl q : np_isclose q q = true.
Proof.
  unfold np_isclose. rewrite sub_diag, abs_C0.
  pose proof (abs_nonneg q).
  destruct (Rle_dec 0 (1e-8 + 1e-5 * abs q)); [reflexivity | lra].
Qed.

(** *** Conjugate roots that [np.roots] returns next to each other *)

Lemma abs_angle_conj p : Rabs (angle (conj p)) = Rabs (angle p).
Proof.
  destruct p as [x y]. unfold angle, conj, atan2, re, im. cbn [fst snd].
  assert (E : - y / x = - (y / x)) by (unfold Rdiv; ring).
  rewrite E, atan_opp.
  destruct (Rlt_dec 0 x); [apply Rabs_Ropp|].
  destruct (Rlt_dec x 0).
  - destruct (Rle_dec 0 y), (Rle_dec 0 (- y)).
    + assert (Hy : y = 0) by lra. subst y.
      replace (0 / x) with 0 by (unfold Rdiv; ring). rewrite atan_0. f_equal. ring.
    + replace (- atan (y / x) - PI) with (- (atan (y / x) + PI)) by ring.
      apply Rabs_Ropp.
    + replace (- atan (y / x) + PI) with (- (atan (y / x) - PI)) by ring.
      apply Rabs_Ropp.
    + lra.
  - destruct (Rlt_dec 0 y), (Rlt_dec 0 (- y)), (Rlt_dec y 0), (Rlt_dec (- y) 0);
      try lra; rewrite ?Rabs_Ropp; reflexivity.
Qed.

Lemma list_split2 {A : Type} (l : list A) : forall i d,
  (S i < length l)%nat ->
  exists l1 l2, l = l1 ++ nth i l d :: nth (S i) l d :: l2.
Proof.
  induction l as [|a l IH]; intros i d Hi; [simpl in Hi; lia|].
  destruct i as [|i].
  - destruct l as [|b l]; [simpl in Hi; lia|]. exists [], l. reflexivity.
  - destruct (IH i d) as (l1 & l2 & E); [simpl in Hi; lia|].
    exists (a :: l1), l2. cbn [nth app]. change (nth (S i) l d) with (nth (S i) l d).
    f_equal. exact E.
Qed.

Lemma box_all_app a b h :
  box_all (a ++ b) h = box_all a h ++ box_all b (h + length a).
Proof.
  revert h. induction a as [|v a IH]; intros h; simpl.
  - now rewrite Nat.add_0_r.
  - rewrite IH. do 3 f_equal. lia.
Qed.

Lemma insert_by_skip key y a l :
  Forall (fun e => ~ key (oval y) < key (oval e)) a ->
  insert_by key y (a ++ l) = a ++ insert_by key y l.
Proof.
  induction a as [|e a IH]; intros H; [reflexivity|].
  inversion H as [|? ? He Ha]; subst. cbn [app insert_by].
  destruct (Rlt_dec _ _); [contradiction|]. now rewrite IH.
Qed.

Lemma insert_by_split key x l :
  exists a b,
    insert_by key x l = a ++ x :: b
    /\ Forall (fun e => ~ key (oval x) < key (oval e)) a
    /\ match b with [] => True | e :: _ => key (oval x) < key (oval e) end.
Proof.
  induction l as [|e l IH]; cbn [insert_by].
  - exists [], []. repeat split. constructor.
  - destruct (Rlt_dec _ _) as [Hlt|Hge].
    + exists [], (e :: l). repeat split; [constructor | exact Hlt].
    + destruct IH as (a & b & E & Ha & Hb).
      exists (e :: a), b. rewrite E. repeat split; [constructor; assumption | exact Hb].
Qed.

(** An element inserted right after an element of the same key lands next to it. *)
Lemma insert_by_pair key x y l :
  key (oval x) = key (oval y) ->
  exists a b, insert_by key y (insert_by key x l) = a ++ x :: y :: b.
Proof.
  intros Hk. destruct (insert_by_split key x l) as (a & b & E & Ha & Hb).
  exists a, b. rewrite E, insert_by_skip.
  - f_equal. cbn [insert_by].
    destruct (Rlt_dec _ _) as [Hlt|_]; [rewrite Hk in Hlt; exfalso; lra|].
    f_equal. destruct b as [|e b]; [reflexivity|]. cbn [insert_by].
    rewrite <- Hk. destruct (Rlt_dec _ _); [reflexivity | contradiction].
  - rewrite <- Hk. exact Ha.
Qed.

(** Later insertions do not separate two neighbours of the same key. *)
Lemma insert_by_keeps_pair key x y z : forall a b,
  key (oval x) = key (oval y) ->
  exists a' b', insert_by key z (a ++ x :: y :: b) = a' ++ x :: y :: b'.
Proof.
  intros a b Hk. induction a as [|e a IH]; cbn [app insert_by].
  - destruct (Rlt_dec (key (oval z)) (key (oval x))) as [Hlt|Hge].
    + exists [z], b. reflexivity.
    + destruct (Rlt_dec (key (oval z)) (key (oval y))) as [Hlt'|_];
        [rewrite <- Hk in Hlt'; contradiction|].
      exists [], (insert_by key z b). reflexivity.
  - destruct (Rlt_dec _ _).
    + exists (z :: e :: a), b. reflexivity.
    + destruct IH as (a' & b' & E). exists (e :: a'), b'. now rewrite E.
Qed.

Lemma fold_insert_keeps_pair key x y l : forall a b,
  key (oval x) = key (oval y) ->
  exists a' b',
    fold_left (fun acc e => insert_by key e acc) l (a ++ x :: y :: b) = a' ++ x :: y :: b'.
Proof.
  induction l as [|z l IH]; intros a b Hk; cbn [fold_left]; [eauto|].
  destruct (insert_by_keeps_pair key x y z a b Hk) as (a' & b' & E).
  rewrite E. now apply IH.
Qed.

Lemma stable_sort_keeps_pair key l1 x y l2 :
  key (oval x) = key (oval y) ->
  exists s1 s2, stable_sort key (l1 ++ x :: y :: l2) = s1 ++ x :: y :: s2.
Proof.
  intros Hk. unfold stable_sort. rewrite fold_left_app. cbn [fold_left].
  destruct (insert_by_pair key x y (fold_left (fun acc e => insert_by key e acc) l1 []) Hk)
    as (a & b & E).
  rewrite E. now apply fold_insert_keeps_pair.
Qed.

(** A root and its conjugate that are neighbours in the output of [np.roots]
    are still neighbours after [sorted]. *)
Lemma py_sorted_keeps_conjugates vs i :
  (S i < length vs)%nat ->
  nth (S i) vs C0 = conj (nth i vs C0) ->
  exists i',
    (S i' < length vs)%nat
    /\ nth (S i') (map oval (py_sorted (fun x => Rabs (angle x)) vs)) C0
       = conj (nth i' (map oval (py_sorted (fun x => Rabs (angle x)) vs)) C0).
Proof.
  intros Hi Hc. destruct (list_split2 vs i C0 Hi) as (l1 & l2 & E).
  rewrite Hc in E. remember (nth i vs C0) as p eqn:Hp. clear Hp Hc Hi. subst vs.
  pose proof (py_sorted_length (fun x => Rabs (angle x)) (l1 ++ p :: conj p :: l2)) as Hlen.
  unfold py_sorted in *. rewrite box_all_app in *. cbn [box_all] in *.
  destruct (stable_sort_keeps_pair (fun x => Rabs (angle x)) (box_all l1 0)
              (mkobj (0 + length l1) p) (mkobj (S (0 + length l1)) (conj p))
              (box_all l2 (S (S (0 + length l1)))))
    as (s1 & s2 & Es).
  { cbn [oval]. symmetry. apply abs_angle_conj. }
  rewrite Es in Hlen |- *. exists (length s1).
  rewrite length_app in Hlen. cbn [length] in Hlen.
  split; [lia|].
  rewrite map_app. cbn [map oval].
  rewrite !app_nth2 by (rewrite length_map; lia). rewrite length_map.
  replace (S (length s1) - length s1)%nat with 1%nat by lia.
  rewrite Nat.sub_diag. reflexivity.
Qed.

Section Contributions.

Variable eigvals : list (list R) -> list C.

(** C4 (as the code has it): whenever [psd] returns, without aggregation there
    are as many contribution arrays as poles; with aggregation their number is
    the number of poles less the number of positions at which a pole passes
    the [np.isclose] test against the conjugate of the pole before it.  So
    there are strictly fewer arrays as soon as two neighbouring poles are
    conjugates of each other, which is the case when [np.roots] returns a root
    and its conjugate next to each other, and as many arrays as poles when no
    neighbouring pair passes the test. *)
Theorem contribution_count (self : SpectralAnalyzer) (res : SpectralAnalysis) :
  psd eigvals self = Returns res ->
  let ps := map pos (poles res) in
  let roots := np_roots eigvals (np_r_1_neg (thetap_of self (theta (model self)))) in
  (aggregate self = false -> length (comps res) = length (poles res))
  /\ (aggregate self = true ->
        (length (comps res) + merges ps = length (poles res))%nat
        /\ (1 <= length (comps res) <= length (poles res))%nat
        /\ (forall i, (S i < length ps)%nat ->
              nth (S i) ps C0 = conj (nth i ps C0) ->
              (length (comps res) < length (poles res))%nat)
        /\ (forall i, (S i < length roots)%nat ->
              nth (S i) roots C0 = conj (nth i roots C0) ->
              (length (comps res) < length (poles res))%nat)
        /\ ((forall i, (S i < length ps)%nat ->
               np_isclose (nth (S i) ps C0) (conj (nth i ps C0)) = false) ->
            length (comps res) = length (poles res))).
Proof.
  intros Hret ps roots. unfold psd in Hret.
  apply compute_psd_returns_inv in Hret. destruct Hret as (-> & Hne & _ & E).
  destruct (result_poles eigvals self (theta (model self)) (wn (model self))
              (k (model self)) E) as (Hpos & _ & Hlen).
  set (thetap := thetap_of self (theta (model self))) in *.
  fold ps in Hpos.
  pose proof (stable_poles_list eigvals thetap E) as Hsp.
  assert (Hne' : stable_poles eigvals thetap <> []) by now rewrite Hsp.
  pose proof (agg_comps_length eigvals thetap (wn (model self)) (k (model self)) Hne')
    as Hagg.
  rewrite Hsp, <- Hpos, <- Hlen in Hagg.
  pose proof (merges_le ps) as Hle.
  assert (Hps : length ps = length (poles (result_of eigvals self (theta (model self))
                                            (wn (model self)) (k (model self)))))
    by (unfold ps; apply length_map).
  assert (Hn : (1 <= length ps)%nat).
  { rewrite Hps, Hlen. destruct (sorted_roots eigvals thetap); [congruence | simpl; lia]. }
  cbn [comps result_of] in *. fold thetap in Hagg |- *. split.
  - intros ->. rewrite plain_comps_length, Hsp. now rewrite Hlen.
  - intros ->. split; [exact Hagg|]. split; [lia|]. split; [|split].
    + intros i Hi Hc.
      assert (1 <= merges ps)%nat.
      { apply (merges_pos ps i Hi). rewrite Hc. apply np_isclose_refl. }
      lia.
    + intros i Hi Hc.
      destruct (py_sorted_keeps_conjugates roots i Hi Hc) as (i' & Hi' & Hc').
      change (py_sorted (fun x => Rabs (angle x)) roots)
        with (sorted_roots eigvals thetap) in Hc'.
      rewrite <- Hpos in Hc'.
      assert (1 <= merges ps)%nat.
      { apply (merges_pos ps i').
        - rewrite Hps, Hlen. unfold sorted_roots. rewrite py_sorted_length. exact Hi'.
        - rewrite Hc'. apply np_isclose_refl. }
      lia.
    + intros Hnone. rewrite (merges_none ps Hnone) in Hagg. lia.
Qed.

End Contributions.

Lemma contribution_count_witness :
  psd eigvals_diag (analyzer_of [1 / 2] [1] 1)
  = Returns (result_of eigvals_diag (analyzer_of [1 / 2] [1] 1) [1 / 2] [1] 1)
  /\ Nat.add
       (length (comps (result_of eigvals_diag (analyzer_of [1 / 2] [1] 1) [1 / 2] [1] 1)))
       (merges (map pos (poles (result_of eigvals_diag (analyzer_of [1 / 2] [1] 1)
                                  [1 / 2] [1] 1))))
     = length (poles (result_of eigvals_diag (analyzer_of [1 / 2] [1] 1) [1 / 2] [1] 1)).
Proof.
  split; [apply psd_half_returns|].
  destruct (contribution_count eigvals_diag _ _ (psd_half_returns [1] 1)) as [_ Ht].
  destruct (Ht eq_refl) as [H1 _]. exact H1.
Defined.

Lemma psd_tiny_returns :
  psd eigvals_diag (analyzer_of [1e-9; 0] [1] 1)
  = Returns (result_of eigvals_diag (analyzer_of [1e-9; 0] [1] 1) [1e-9; 0] [1] 1).
Proof.
  unfold psd. cbn [model theta wn k analyzer_of].
  apply compute_psd_returns; cbn [thetap_of analyzer_of model hasTheta0].
  - rewrite sorted_roots_tiny. discriminate.
  - rewrite max_abs_tiny. lra.
Qed.

(** C4 as stated fails: the model [theta = [1e-9, 0]] has the two real poles
    [1e-9] and [0].  Neither is the conjugate of the other and none has an
    imaginary part, yet [np.isclose] accepts the pair and, with aggregation
    enabled, one contribution array is returned for two poles. *)
Lemma close_real_poles_are_merged :
  exists res,
    psd eigvals_diag (analyzer_of [1e-9; 0] [1] 1) = Returns res
    /\ aggregate (analyzer_of [1e-9; 0] [1] 1) = true
    /\ map pos (poles res) = [of_R 1e-9; C0]
    /\ length (poles res) = 2%nat
    /\ length (comps res) = 1%nat.
Proof.
  eexists. split; [exact psd_tiny_returns|]. split; [reflexivity|].
  assert (E : scale_factor eigvals_diag [1e-9; 0] = PyInt 1).
  { destruct (scale_factor_cases eigvals_diag [1e-9; 0]) as [[_ E] | [Hm _]]; [exact E|].
    rewrite max_abs_tiny in Hm. lra. }
  destruct (result_poles eigvals_diag (analyzer_of [1e-9; 0] [1] 1) [1e-9; 0] [1] 1 E)
    as (Hpos & _ & Hlen).
  cbn [thetap_of analyzer_of model hasTheta0] in Hpos, Hlen.
  rewrite Hpos, Hlen, sorted_roots_tiny.
  split; [reflexivity|]. split; [reflexivity|].
  cbn [comps result_of aggregate analyzer_of thetap_of model hasTheta0].
  pose proof (stable_poles_list eigvals_diag [1e-9; 0] E) as Hsp.
  rewrite sorted_roots_tiny in Hsp.
  assert (Hne : stable_poles eigvals_diag [1e-9; 0] <> []) by (rewrite Hsp; discriminate).
  pose proof (agg_comps_length eigvals_diag [1e-9; 0] [1] 1 Hne) as H.
  rewrite Hsp in H. cbn [map oval] in H.
  rewrite merges_cons2, tiny_pole_is_close_to_zero in H.
  simpl in H. lia.
Qed.

(** * Further properties of [psd] *)

(** ** Which inputs return, and which exception the others raise *)

Lemma max_abs_lt_iff ps b :
  ps <> [] -> (max_abs ps < b <-> Forall (fun o => abs (oval o) < b) ps).
Proof.
  intros Hne. destruct (max_abs_spec ps Hne) as [Hall Hin]. split.
  - intros Hlt. eapply Forall_impl; [|exact Hall]. intros o Ho. cbv beta in Ho. lra.
  - intros H. apply in_map_iff in Hin. destruct Hin as [o [<- Ho]].
    rewrite Forall_forall in H. now apply H.
Qed.

Lemma sorted_roots_Forall eigvals thetap (P : C -> Prop) :
  Forall (fun o => P (oval o)) (sorted_roots eigvals thetap)
  <-> Forall P (np_roots eigvals (np_r_1_neg thetap)).
Proof.
  rewrite <- Forall_map. rewrite !Forall_forall. unfold sorted_roots.
  split; intros H x Hx; apply H; now apply (py_sorted_In (fun x => Rabs (angle x))).
Qed.

Lemma not_all_below_iff (l : list C) :
  ~ Forall (fun r => abs r < 0.99) l <-> Exists (fun r => 0.99 <= abs r) l.
Proof.
  induction l as [|r l IH].
  - split; [intros H; exfalso; apply H; constructor | intros H; inversion H].
  - split.
    + intros H. destruct (Rlt_dec (abs r) 0.99) as [Hlt|Hge].
      * apply Exists_cons_tl, IH. intros Hall. apply H. now constructor.
      * apply Exists_cons_hd. lra.
    + intros H Hall. inversion Hall as [|? ? Hr Hl]; subst.
      inversion H as [? ? Hge|? ? Hex]; subst; [lra|].
      now apply (proj2 IH Hex).
Qed.

Section Outcomes.

Variable eigvals : list (list R) -> list C.
Hypothesis eigvals_length : forall A, length (eigvals A) = length A.

(** X1: [psd] returns exactly when at least one AR coefficient is left and
    every root of the characteristic polynomial has modulus below 0.99; it
    raises [ValueError] exactly when no coefficient is left, [TypeError]
    exactly when some root has modulus 0.99 or more, and never anything else.
    The model's [wn], [k] and the [aggregate] flag play no part in this. *)
Theorem psd_outcome (self : SpectralAnalyzer) :
  let thetap := thetap_of self (theta (model self)) in
  let roots := np_roots eigvals (np_r_1_neg thetap) in
  ((exists res, psd eigvals self = Returns res)
     <-> thetap <> [] /\ Forall (fun r => abs r < 0.99) roots)
  /\ (psd eigvals self = Raises "ValueError"%string <-> thetap = [])
  /\ (psd eigvals self = Raises "TypeError"%string
        <-> thetap <> [] /\ Exists (fun r => 0.99 <= abs r) roots)
  /\ (forall exc, psd eigvals self = Raises exc ->
        exc = "ValueError"%string \/ exc = "TypeError"%string).
Proof.
  cbv zeta. unfold psd.
  pose proof (compute_psd_unfold eigvals self (theta (model self)) (wn (model self))
                (k (model self))) as Hu.
  pose proof (compute_psd_returns eigvals self (theta (model self))
                (wn (model self)) (k (model self))) as Hret.
  pose proof (compute_psd_unstable eigvals self (theta (model self))
                (wn (model self)) (k (model self))) as Hun.
  pose proof (sorted_roots_nonempty eigvals eigvals_length
                (thetap_of self (theta (model self)))) as Hne.
  pose proof (max_abs_lt_iff (sorted_roots eigvals (thetap_of self (theta (model self))))
                0.99) as Hiff.
  rewrite (sorted_roots_Forall eigvals _ (fun r => abs r < 0.99)) in Hiff.
  destruct (thetap_of self (theta (model self))) as [|t0 th].
  - rewrite sorted_roots_nil in Hu. rewrite Hu.
    split; [|split; [|split]].
    + split; [intros [res H]; discriminate | intros [H _]; congruence].
    + split; reflexivity.
    + split; [intros H; discriminate | intros [H _]; congruence].
    + intros exc H. injection H as <-. now left.
  - assert (Hne' : sorted_roots eigvals (t0 :: th) <> []) by (apply Hne; discriminate).
    specialize (Hiff Hne').
    destruct (Rlt_dec (max_abs (sorted_roots eigvals (t0 :: th))) 0.99) as [Hlt|Hge].
    + rewrite (Hret Hne' Hlt). split; [|split; [|split]].
      * split; [intros _; split; [discriminate | now apply Hiff]
               | intros _; eexists; reflexivity].
      * split; discriminate.
      * split; [discriminate|]. intros [_ Hex]. apply not_all_below_iff in Hex.
        exfalso. apply Hex. now apply Hiff.
      * discriminate.
    + rewrite (Hun Hne') by lra. split; [|split; [|split]].
      * split; [intros [res H]; discriminate|].
        intros [_ Hall]. exfalso. apply Hge. now apply Hiff.
      * split; discriminate.
      * split; [|reflexivity]. intros _. split; [discriminate|].
        apply not_all_below_iff. intros Hall. apply Hge. now apply Hiff.
      * intros exc H. injection H as <-. now right.
Qed.

(** X2: the returned pole list has exactly one pole per AR coefficient. *)
Theorem one_pole_per_coefficient (self : SpectralAnalyzer) (res : SpectralAnalysis) :
  psd eigvals self = Returns res ->
  length (poles res) = length (thetap_of self (theta (model self))).
Proof.
  intros Hret. unfold psd in Hret.
  apply compute_psd_returns_inv in Hret. destruct Hret as (-> & _ & _ & E).
  destruct (result_poles eigvals self (theta (model self)) (wn (model self))
              (k (model self)) E) as (_ & _ & Hlen).
  rewrite Hlen. now apply sorted_roots_length.
Qed.

End Outcomes.

Lemma psd_outcome_witness :
  psd eigvals_diag (analyzer_of [2] [1] 1) = Raises "TypeError"%string
  <-> [2] <> [] /\ Exists (fun r => 0.99 <= abs r) (np_roots eigvals_diag (np_r_1_neg [2])).
Proof.
  apply (psd_outcome eigvals_diag eigvals_diag_length (analyzer_of [2] [1] 1)).
Defined.

Lemma one_pole_per_coefficient_witness :
  psd eigvals_diag (analyzer_of [1 / 2] [1] 1)
  = Returns (result_of eigvals_diag (analyzer_of [1 / 2] [1] 1) [1 / 2] [1] 1)
  /\ length (poles (result_of eigvals_diag (analyzer_of [1 / 2] [1] 1) [1 / 2] [1] 1))
     = 1%nat.
Proof.
  split; [apply psd_half_returns|].
  apply (one_pole_per_coefficient eigvals_diag eigvals_diag_length
           (analyzer_of [1 / 2] [1] 1)).
  apply psd_half_returns.
Defined.

(** ** The order of the returned poles *)

Lemma insert_by_HdRel key x y t :
  HdRel (fun a b => key (oval a) <= key (oval b)) y t ->
  key (oval y) <= key (oval x) ->
  HdRel (fun a b => key (oval a) <= key (oval b)) y (insert_by key x t).
Proof.
  intros Ht Hx. destruct t as [|e t]; cbn [insert_by].
  - constructor. exact Hx.
  - destruct (Rlt_dec _ _); constructor; [exact Hx|].
    inversion Ht; assumption.
Qed.

Lemma insert_by_sorted key x l :
  Sorted (fun a b => key (oval a) <= key (oval b)) l ->
  Sorted (fun a b => key (oval a) <= key (oval b)) (insert_by key x l).
Proof.
  induction l as [|y t IH]; intros Hs; cbn [insert_by].
  - constructor; constructor.
  - destruct (Rlt_dec _ _) as [Hlt|Hge].
    + constructor; [exact Hs|]. constructor. lra.
    + inversion Hs as [|? ? Ht Hd]; subst. constructor; [now apply IH|].
      apply insert_by_HdRel; [exact Hd | lra].
Qed.

Lemma stable_sort_sorted key l :
  Sorted (fun a b => key (oval a) <= key (oval b)) (stable_sort key l).
Proof.
  unfold stable_sort.
  assert (H : forall acc, Sorted (fun a b => key (oval a) <= key (oval b)) acc ->
            Sorted (fun a b => key (oval a) <= key (oval b))
              (fold_left (fun acc x => insert_by key x acc) l acc)).
  { induction l as [|x l IH]; intros acc Hacc; cbn [fold_left]; [exact Hacc|].
    apply IH. now apply insert_by_sorted. }
  apply H. constructor.
Qed.

Lemma Sorted_nth {A : Type} (R : A -> A -> Prop) (l : list A) (d : A) :
  Sorted R l -> forall i, (S i < length l)%nat -> R (nth i l d) (nth (S i) l d).
Proof.
  induction 1 as [|a l Hs IH Hd]; intros i Hi; [simpl in Hi; lia|].
  destruct i as [|i].
  - destruct l as [|b l]; [simpl in Hi; lia|]. inversion Hd; assumption.
  - apply IH. simpl in Hi. lia.
Qed.



Section ReturnedPoles.

Variable eigvals : list (list R) -> list C.

(** X3: the returned poles are in the order of non-decreasing absolute angle. *)
Theorem poles_sorted_by_abs_angle (self : SpectralAnalyzer) (res : SpectralAnalysis) :
  psd eigvals self = Returns res ->
  forall i, (S i < length (poles res))%nat ->
    Rabs (angle (nth i (map pos (poles res)) C0))
    <= Rabs (angle (nth (S i) (map pos (poles res)) C0)).
Proof.
  intros Hret i Hi. unfold psd in Hret.
  apply compute_psd_returns_inv in Hret. destruct Hret as (-> & _ & _ & E).
  destruct (result_poles eigvals self (theta (model self)) (wn (model self))
              (k (model self)) E) as (Hpos & _ & Hlen).
  rewrite Hlen in Hi. rewrite Hpos.
  rewrite !(map_nth_lt _ _ _ (mkobj 0 C0)) by lia.
  apply (Sorted_nth (fun a b => Rabs (angle (oval a)) <= Rabs (angle (oval b))));
    [|exact Hi].
  unfold sorted_roots, py_sorted.
  apply (stable_sort_sorted (fun x => Rabs (angle x))).
Qed.

(** X4: the returned pole positions are the roots that [np.roots] found, each
    as often as it was found: none is dropped, merged or moved. *)
Theorem poles_are_the_roots (self : SpectralAnalyzer) (res : SpectralAnalysis) :
  psd eigvals self = Returns res ->
  Permutation (map pos (poles res))
    (np_roots eigvals (np_r_1_neg (thetap_of self (theta (model self))))).
Proof.
  intros Hret. unfold psd in Hret.
  apply compute_psd_returns_inv in Hret. destruct Hret as (-> & _ & _ & E).
  destruct (result_poles eigvals self (theta (model self)) (wn (model self))
              (k (model self)) E) as (Hpos & _ & _).
  rewrite Hpos. apply py_sorted_perm.
Qed.


End ReturnedPoles.

Lemma poles_sorted_by_abs_angle_witness :
  psd eigvals_diag (analyzer_of [1e-9; 0] [1] 1)
  = Returns (result_of eigvals_diag (analyzer_of [1e-9; 0] [1] 1) [1e-9; 0] [1] 1)
  /\ Rabs (angle (nth 0 (map pos (poles (result_of eigvals_diag
                                          (analyzer_of [1e-9; 0] [1] 1) [1e-9; 0] [1] 1))) C0))
     <= Rabs (angle (nth 1 (map pos (poles (result_of eigvals_diag
                                           (analyzer_of [1e-9; 0] [1] 1) [1e-9; 0] [1] 1))) C0)).
Proof.
  split; [exact psd_tiny_returns|].
  apply (poles_sorted_by_abs_angle eigvals_diag _ _ psd_tiny_returns).
  assert (E : scale_factor eigvals_diag [1e-9; 0] = PyInt 1).
  { destruct (scale_factor_cases eigvals_diag [1e-9; 0]) as [[_ E] | [Hm _]]; [exact E|].
    rewrite max_abs_tiny in Hm. lra. }
  destruct (result_poles eigvals_diag (analyzer_of [1e-9; 0] [1] 1) [1e-9; 0] [1] 1 E)
    as (_ & _ & Hlen).
  cbn [thetap_of analyzer_of model hasTheta0] in Hlen.
  rewrite Hlen, sorted_roots_tiny. simpl. lia.
Defined.

Lemma poles_are_the_roots_witness :
  psd eigvals_diag (analyzer_of [1 / 2] [1] 1)
  = Returns (result_of eigvals_diag (analyzer_of [1 / 2] [1] 1) [1 / 2] [1] 1)
  /\ Permutation
       (map pos (poles (result_of eigvals_diag (analyzer_of [1 / 2] [1] 1) [1 / 2] [1] 1)))
       (np_roots eigvals_diag (np_r_1_neg [1 / 2])).
Proof.
  split; [apply psd_half_returns|].
  apply (poles_are_the_roots eigvals_diag (analyzer_of [1 / 2] [1] 1)).
  apply psd_half_returns.
Defined.


(** ** The contribution arrays *)

Lemma zip_with_Forall {A B D : Type} (f : A -> B -> D) (P : D -> Prop) l l' :
  (forall a b, P (f a b)) -> Forall P (zip_with f l l').
Proof.
  intros H. revert l'. induction l as [|a l IH]; intros [|b l']; simpl; constructor; auto.
Qed.

Lemma map_snd_combine {A B : Type} (l : list A) (l' : list B) :
  length l = length l' -> map snd (combine l l') = l'.
Proof.
  revert l'. induction l as [|a l IH]; intros [|b l'] H; simpl in *;
    try discriminate; [reflexivity|].
  f_equal. apply IH. congruence.
Qed.

Lemma add_to_last_Forall (P : list C -> Prop) agg c :
  agg <> [] -> Forall P agg -> P (zip_with add (last agg []) c) ->
  Forall P (add_to_last agg c).
Proof.
  intros Hne Hall Hc. unfold add_to_last. apply Forall_app. split.
  - rewrite (app_removelast_last [] Hne) in Hall. apply Forall_app in Hall. tauto.
  - constructor; [exact Hc | constructor].
Qed.

Lemma aggregate_loop_lengths n rest : forall prev agg,
  agg <> [] ->
  Forall (fun c => length c = n) agg ->
  Forall (fun c => length c = n) (map snd rest) ->
  Forall (fun c => length c = n) (aggregate_loop prev rest agg).
Proof.
  induction rest as [|[p c] rest IH]; intros prev agg Hne Hagg Hrest; [exact Hagg|].
  cbn [aggregate_loop]. cbn [map snd] in Hrest.
  apply Forall_cons_iff in Hrest. destruct Hrest as [Hc Hr].
  destruct (np_isclose p (conj prev)); apply IH; try assumption.
  - unfold add_to_last. intros E. apply app_eq_nil in E. destruct E; discriminate.
  - apply add_to_last_Forall; try assumption.
    rewrite zip_with_length, Hc.
    assert (Hl : length (last agg []) = n).
    { rewrite Forall_forall in Hagg. apply Hagg.
      rewrite (app_removelast_last [] Hne) at 2. apply in_or_app. right. now left. }
    rewrite Hl. apply Nat.min_id.
  - intros E. apply app_eq_nil in E. destruct E; discriminate.
  - apply Forall_app. split; [exact Hagg | constructor; [exact Hc | constructor]].
Qed.

Lemma plain_comps_lengths eigvals thetap w k0 :
  Forall (fun c => length c = grid_size) (plain_comps eigvals thetap w k0).
Proof.
  unfold plain_comps. apply zip_with_Forall. intros r p.
  unfold pole_comp. rewrite length_map. apply z_grid_length.
Qed.

Lemma agg_comps_lengths eigvals thetap w k0 :
  stable_poles eigvals thetap <> [] ->
  Forall (fun c => length c = grid_size) (agg_comps eigvals thetap w k0).
Proof.
  intros Hne. unfold agg_comps.
  pose proof (plain_comps_length eigvals thetap w k0) as Hpc.
  pose proof (plain_comps_lengths eigvals thetap w k0) as Hall.
  destruct (stable_poles eigvals thetap) as [|o os]; [congruence|].
  destruct (plain_comps eigvals thetap w k0) as [|c0 cs]; [discriminate|].
  cbn [map hd tl length] in *.
  apply Forall_cons_iff in Hall. destruct Hall as [H0 Hcs].
  apply aggregate_loop_lengths.
  - discriminate.
  - constructor; [exact H0 | constructor].
  - rewrite map_snd_combine by (rewrite length_map; congruence). exact Hcs.
Qed.

Lemma zip_add_assoc (a b c : list C) :
  zip_with add (zip_with add a b) c = zip_with add a (zip_with add b c).
Proof.
  revert b c. induction a as [|x a IH]; intros [|y b] [|z c]; simpl; try reflexivity.
  f_equal; [ring | apply IH].
Qed.

Lemma total_add_to_last agg c acc :
  agg <> [] ->
  fold_left (zip_with add) (add_to_last agg c) acc
  = zip_with add (fold_left (zip_with add) agg acc) c.
Proof.
  intros Hne. unfold add_to_last. rewrite fold_left_app. cbn [fold_left].
  rewrite (app_removelast_last [] Hne) at 3.
  rewrite fold_left_app. cbn [fold_left]. symmetry. apply zip_add_assoc.
Qed.

(** Whether the loop merges or appends, the running total grows by the array
    it has just visited. *)
Lemma aggregate_loop_total rest : forall prev agg acc,
  agg <> [] ->
  fold_left (zip_with add) (aggregate_loop prev rest agg) acc
  = fold_left (zip_with add) (map snd rest) (fold_left (zip_with add) agg acc).
Proof.
  induction rest as [|[p c] rest IH]; intros prev agg acc Hne; [reflexivity|].
  cbn [aggregate_loop map snd fold_left].
  destruct (np_isclose p (conj prev)).
  - rewrite IH, total_add_to_last by
      (try exact Hne; unfold add_to_last; intros E; apply app_eq_nil in E;
       destruct E; discriminate).
    reflexivity.
  - rewrite IH by (intros E; apply app_eq_nil in E; destruct E; discriminate).
    rewrite fold_left_app. reflexivity.
Qed.

Lemma agg_comps_total eigvals thetap w k0 n :
  stable_poles eigvals thetap <> [] ->
  comps_total n (agg_comps eigvals thetap w k0)
  = comps_total n (plain_comps eigvals thetap w k0).
Proof.
  intros Hne. unfold comps_total, agg_comps.
  pose proof (plain_comps_length eigvals thetap w k0) as Hpc.
  destruct (stable_poles eigvals thetap) as [|o os]; [congruence|].
  destruct (plain_comps eigvals thetap w k0) as [|c0 cs]; [discriminate|].
  cbn [map hd tl length] in *.
  rewrite aggregate_loop_total by discriminate.
  rewrite map_snd_combine by (rewrite length_map; congruence).
  reflexivity.
Qed.

Lemma aggregate_loop_no_merge rest : forall prev agg,
  merges (prev :: map fst rest) = O ->
  aggregate_loop prev rest agg = agg ++ map snd rest.
Proof.
  induction rest as [|[p c] rest IH]; intros prev agg Hm.
  - simpl. now rewrite app_nil_r.
  - cbn [aggregate_loop map fst snd] in *. rewrite merges_cons2 in Hm.
    destruct (np_isclose p (conj prev)); [discriminate|].
    rewrite IH by exact Hm. now rewrite <- app_assoc.
Qed.

Lemma agg_comps_no_merge eigvals thetap w k0 :
  stable_poles eigvals thetap <> [] ->
  merges (map oval (stable_poles eigvals thetap)) = O ->
  agg_comps eigvals thetap w k0 = plain_comps eigvals thetap w k0.
Proof.
  intros Hne Hm. unfold agg_comps.
  pose proof (plain_comps_length eigvals thetap w k0) as Hpc.
  destruct (stable_poles eigvals thetap) as [|o os]; [congruence|].
  - destruct (plain_comps eigvals thetap w k0) as [|c0 cs]; [discriminate|].
    cbn [map hd tl length] in *.
    rewrite aggregate_loop_no_merge.
    + rewrite map_snd_combine by (rewrite length_map; congruence). reflexivity.
    + rewrite map_fst_combine by (rewrite length_map; congruence). exact Hm.
Qed.

Lemma thetap_of_flag m b b' th :
  thetap_of (mkAnalyzer m b) th = thetap_of (mkAnalyzer m b') th.
Proof. reflexivity. Qed.

Section ContributionArrays.

Variable eigvals : list (list R) -> list C.

(** X5: the returned arrays are parallel: the frequency array, the power
    array and every contribution array, aggregated or not, have 2048
    entries. *)
Theorem arrays_have_grid_length (self : SpectralAnalyzer) (res : SpectralAnalysis) :
  psd eigvals self = Returns res ->
  length (frequencies res) = 2048%nat
  /\ length (powers res) = 2048%nat
  /\ Forall (fun c => length c = 2048%nat) (comps res).
Proof.
  intros Hret. unfold psd in Hret.
  apply compute_psd_returns_inv in Hret. destruct Hret as (-> & Hne & _ & E).
  cbn [frequencies powers comps result_of]. rewrite !length_map.
  split; [apply fs_grid_length|]. split; [apply z_grid_length|].
  destruct (aggregate self).
  - apply agg_comps_lengths. now rewrite stable_poles_list.
  - apply plain_comps_lengths.
Qed.

(** X7: aggregation only regroups.  Summed entry by entry over the poles, the
    aggregated contribution arrays give the same array as the unaggregated
    ones. *)
Theorem aggregation_keeps_the_total (m : PointProcessModel) (r1 r2 : SpectralAnalysis) :
  psd eigvals (mkAnalyzer m true) = Returns r1 ->
  psd eigvals (mkAnalyzer m false) = Returns r2 ->
  comps_total grid_size (comps r1) = comps_total grid_size (comps r2).
Proof.
  intros H1 H2. unfold psd in H1, H2. cbn [model] in H1, H2.
  apply compute_psd_returns_inv in H1. destruct H1 as (-> & Hne & _ & E).
  apply compute_psd_returns_inv in H2. destruct H2 as (-> & _).
  cbn [comps result_of aggregate].
  rewrite (thetap_of_flag m false true).
  apply agg_comps_total. now rewrite stable_poles_list.
Qed.

(** X8: the [aggregate] flag has no effect on whether [psd] returns, on the
    exception it raises, nor on the frequencies, the powers and the poles of
    the result; it only changes the contribution arrays. *)
Theorem aggregate_flag_only_changes_comps (m : PointProcessModel) :
  match psd eigvals (mkAnalyzer m true), psd eigvals (mkAnalyzer m false) with
  | Returns r1, Returns r2 =>
      frequencies r1 = frequencies r2 /\ powers r1 = powers r2 /\ poles r1 = poles r2
  | Raises e1, Raises e2 => e1 = e2
  | _, _ => False
  end.
Proof.
  unfold psd. cbn [model]. rewrite !compute_psd_unfold.
  rewrite (thetap_of_flag m false true).
  destruct (sorted_roots eigvals (thetap_of (mkAnalyzer m true) (theta m)));
    [reflexivity|].
  destruct (scale_factor eigvals (thetap_of (mkAnalyzer m true) (theta m)));
    [|reflexivity].
  cbn [frequencies powers poles result_of].
  rewrite (thetap_of_flag m false true). repeat split.
Qed.

(** X9: when no pole passes the [np.isclose] test against the conjugate of the
    pole before it (a single pole, for one), aggregation changes nothing: the
    contribution arrays are the same with and without it. *)
Theorem no_close_neighbours_no_merge (m : PointProcessModel) (r1 r2 : SpectralAnalysis) :
  psd eigvals (mkAnalyzer m true) = Returns r1 ->
  psd eigvals (mkAnalyzer m false) = Returns r2 ->
  (forall i, (S i < length (poles r1))%nat ->
     np_isclose (nth (S i) (map pos (poles r1)) C0)
       (conj (nth i (map pos (poles r1)) C0)) = false) ->
  comps r1 = comps r2.
Proof.
  intros H1 H2 Hnone. unfold psd in H1, H2. cbn [model] in H1, H2.
  apply compute_psd_returns_inv in H1. destruct H1 as (-> & Hne & _ & E).
  apply compute_psd_returns_inv in H2. destruct H2 as (-> & _).
  destruct (result_poles eigvals (mkAnalyzer m true) (theta m) (wn m) (k m) E)
    as (Hpos & _ & Hlen).
  cbn [comps result_of aggregate].
  rewrite (thetap_of_flag m false true).
  pose proof (stable_poles_list eigvals _ E) as Hsp.
  apply agg_comps_no_merge; rewrite Hsp; [exact Hne|].
  rewrite <- Hpos. apply merges_none. intros i Hi. apply Hnone.
  now rewrite length_map in Hi.
Qed.

End ContributionArrays.

Lemma psd_half_returns_flag b w k0 :
  psd eigvals_diag (mkAnalyzer (mkModel [1 / 2] w k0 false) b)
  = Returns (result_of eigvals_diag (mkAnalyzer (mkModel [1 / 2] w k0 false) b)
               [1 / 2] w k0).
Proof.
  unfold psd. cbn [model theta wn k].
  apply compute_psd_returns; cbn [thetap_of model hasTheta0].
  - rewrite sorted_roots_linear by lra. discriminate.
  - rewrite max_abs_linear, Rabs_right by lra. lra.
Qed.

Lemma arrays_have_grid_length_witness :
  psd eigvals_diag (analyzer_of [1 / 2] [1] 1)
  = Returns (result_of eigvals_diag (analyzer_of [1 / 2] [1] 1) [1 / 2] [1] 1)
  /\ Forall (fun c => length c = 2048%nat)
       (comps (result_of eigvals_diag (analyzer_of [1 / 2] [1] 1) [1 / 2] [1] 1)).
Proof.
  split; [apply psd_half_returns|].
  apply (arrays_have_grid_length eigvals_diag (analyzer_of [1 / 2] [1] 1)).
  apply psd_half_returns.
Defined.

Lemma aggregation_keeps_the_total_witness :
  comps_total grid_size
    (comps (result_of eigvals_diag (mkAnalyzer (mkModel [1 / 2] [1] 1 false) true)
              [1 / 2] [1] 1))
  = comps_total grid_size
      (comps (result_of eigvals_diag (mkAnalyzer (mkModel [1 / 2] [1] 1 false) false)
                [1 / 2] [1] 1)).
Proof.
  apply (aggregation_keeps_the_total eigvals_diag (mkModel [1 / 2] [1] 1 false)).
  - apply (psd_half_returns_flag true).
  - apply (psd_half_returns_flag false).
Defined.

Lemma no_close_neighbours_no_merge_witness :
  comps (result_of eigvals_diag (mkAnalyzer (mkModel [1 / 2] [1] 1 false) true)
           [1 / 2] [1] 1)
  = comps (result_of eigvals_diag (mkAnalyzer (mkModel [1 / 2] [1] 1 false) false)
             [1 / 2] [1] 1).
Proof.
  apply (no_close_neighbours_no_merge eigvals_diag (mkModel [1 / 2] [1] 1 false)).
  - apply (psd_half_returns_flag true).
  - apply (psd_half_returns_flag false).
  - intros i Hi. exfalso.
    assert (E : scale_factor eigvals_diag [1 / 2] = PyInt 1) by exact scale_factor_half.
    destruct (result_poles eigvals_diag (mkAnalyzer (mkModel [1 / 2] [1] 1 false) true)
                [1 / 2] [1] 1 E) as (_ & _ & Hlen).
    cbn [thetap_of model hasTheta0] in Hlen.
    rewrite Hlen, sorted_roots_linear in Hi by lra. simpl in Hi. lia.
Defined.

(** ** The spectrum is even in the frequency *)

Lemma conj_add a b : conj (a + b)%cx = (conj a + conj b)%cx.
Proof. apply C_eq; cx_simpl; ring. Qed.

Lemma conj_mul a b : conj (a * b)%cx = (conj a * conj b)%cx.
Proof. apply C_eq; cx_simpl; ring. Qed.

Lemma conj_conj a : conj (conj a) = a.
Proof. apply C_eq; cx_simpl; ring. Qed.

Lemma abs_conj a : abs (conj a) = abs a.
Proof. unfold abs. now rewrite norm2_conj. Qed.

Lemma expi_neg t : expi (- t) = conj (expi t).
Proof. unfold expi, conj, re, im. cbn [fst snd]. now rewrite cos_neg, sin_neg. Qed.

(** A polynomial with real coefficients commutes with conjugation. *)
Lemma np_polyval_conj p w : np_polyval p (conj w) = conj (np_polyval p w).
Proof.
  unfold np_polyval.
  assert (H : forall acc,
    fold_left (fun y pv => (y * conj w + of_R pv)%cx) p (conj acc)
    = conj (fold_left (fun y pv => (y * w + of_R pv)%cx) p acc)).
  { induction p as [|c p IH]; intros acc; cbn [fold_left]; [reflexivity|].
    rewrite <- IH. f_equal. rewrite conj_add, conj_mul, of_R_conj. reflexivity. }
  rewrite <- H. f_equal. apply C_eq; cx_simpl; ring.
Qed.

Lemma fs_grid_mirror j :
  (j < grid_size)%nat -> nth (grid_size - 1 - j) fs_grid 0 = - nth j fs_grid 0.
Proof.
  intros Hj. rewrite !fs_grid_nth by lia.
  rewrite minus_INR by lia. rewrite INR_grid. lra.
Qed.

Lemma z_grid_mirror j :
  (j < grid_size)%nat -> nth (grid_size - 1 - j) z_grid C0 = conj (nth j z_grid C0).
Proof.
  intros Hj. rewrite !z_grid_nth by lia. rewrite fs_grid_mirror by assumption.
  rewrite <- expi_neg. f_equal. ring.
Qed.

Section Symmetry.

Variable eigvals : list (list R) -> list C.

(** X10: the returned spectrum is even.  Entry [2047 - j] of the frequency
    array is the opposite of entry [j], and the power array has the same value
    at both: the grid is symmetric about zero and the AR coefficients are
    real. *)
Theorem spectrum_is_even (self : SpectralAnalyzer) (res : SpectralAnalysis) (j : nat) :
  psd eigvals self = Returns res ->
  (j < 2048)%nat ->
  nth (2047 - j) (frequencies res) 0 = - nth j (frequencies res) 0
  /\ nth (2047 - j) (powers res) 0 = nth j (powers res) 0.
Proof.
  intros Hret Hj. unfold psd in Hret.
  apply compute_psd_returns_inv in Hret. destruct Hret as (-> & _).
  cbn [frequencies powers result_of].
  change 2047%nat with (grid_size - 1)%nat. change 2048%nat with grid_size in Hj.
  split.
  - rewrite !(map_nth_lt _ _ _ 0) by (rewrite fs_grid_length; lia).
    rewrite fs_grid_mirror by assumption. ring.
  - rewrite !(map_nth_lt _ _ _ C0) by (rewrite z_grid_length; lia).
    rewrite z_grid_mirror by assumption.
    rewrite (np_polyval_conj _ (conj (nth j z_grid C0))), abs_conj.
    reflexivity.
Qed.

End Symmetry.

Lemma spectrum_is_even_witness :
  nth (2047 - 3)
    (powers (result_of eigvals_diag (analyzer_of [1 / 2] [1] 1) [1 / 2] [1] 1)) 0
  = nth 3 (powers (result_of eigvals_diag (analyzer_of [1 / 2] [1] 1) [1 / 2] [1] 1)) 0.
Proof.
  apply (spectrum_is_even eigvals_diag (analyzer_of [1 / 2] [1] 1) _ 3).
  - apply psd_half_returns.
  - lia.
Defined.

(** ** Zero coefficients at the end of the model *)

Lemma lstrip0_zeros m l : lstrip0 (repeat (- 0) m ++ l) = lstrip0 l.
Proof.
  induction m as [|m IH]; cbn [repeat app lstrip0]; [reflexivity|].
  destruct (Req_dec_T (- 0) 0) as [_|H]; [exact IH | lra].
Qed.

(** [np.roots] on a coefficient list that ends in [m] zeros: the roots of the
    list without them, then [m] roots at the origin. *)
Lemma np_roots_trailing_zeros eigvals th m :
  np_roots eigvals (np_r_1_neg (th ++ repeat 0 m))
  = np_roots eigvals (np_r_1_neg th) ++ repeat C0 m.
Proof.
  unfold np_roots, np_r_1_neg. cbn [lstrip0].
  destruct (Req_dec_T 1 0) as [H|_]; [lra|].
  assert (Hrev : lstrip0 (rev (1 :: map Ropp (th ++ repeat 0 m)))
                 = lstrip0 (rev (1 :: map Ropp th))).
  { cbn [rev]. rewrite map_app, rev_app_distr, map_repeat, rev_repeat.
    rewrite <- app_assoc. apply lstrip0_zeros. }
  rewrite Hrev.
  set (core := rev (lstrip0 (rev (1 :: map Ropp th)))).
  assert (Hc : (length core <= S (length th))%nat).
  { unfold core. rewrite length_rev.
    etransitivity; [apply lstrip0_length_le|].
    rewrite length_rev. cbn [length]. now rewrite length_map. }
  rewrite <- app_assoc, <- repeat_app. do 2 f_equal.
  cbn [length]. rewrite !length_map, length_app, repeat_length.
  clearbody core. lia.
Qed.

Section TrailingZeros.

Variable eigvals : list (list R) -> list C.

(** X11: zero coefficients at the end of the AR model become poles at the
    origin.  When the coefficient sequence is [th] followed by [m] zeros, the
    returned pole positions are the roots [np.roots] finds for [th] together
    with [m] poles at 0. *)
Theorem trailing_zero_coefficients_give_origin_poles
  (self : SpectralAnalyzer) (res : SpectralAnalysis) (th : list R) (m : nat) :
  psd eigvals self = Returns res ->
  thetap_of self (theta (model self)) = th ++ repeat 0 m ->
  Permutation (map pos (poles res))
    (np_roots eigvals (np_r_1_neg th) ++ repeat C0 m).
Proof.
  intros Hret Hth. unfold psd in Hret.
  apply compute_psd_returns_inv in Hret. destruct Hret as (-> & _ & _ & E).
  destruct (result_poles eigvals self (theta (model self)) (wn (model self))
              (k (model self)) E) as (Hpos & _ & _).
  rewrite Hpos. unfold sorted_roots. rewrite Hth.
  rewrite <- np_roots_trailing_zeros. apply py_sorted_perm.
Qed.

End TrailingZeros.

Lemma trailing_zero_coefficients_give_origin_poles_witness :
  Permutation
    (map pos (poles (result_of eigvals_diag (analyzer_of [1e-9; 0] [1] 1) [1e-9; 0] [1] 1)))
    (np_roots eigvals_diag (np_r_1_neg [1e-9]) ++ repeat C0 1).
Proof.
  apply (trailing_zero_coefficients_give_origin_poles eigvals_diag
           (analyzer_of [1e-9; 0] [1] 1) _ [1e-9] 1).
  - apply psd_tiny_returns.
  - reflexivity.
Defined.

(** ** A model whose coefficients are all zero *)

Lemma np_roots_zeros eigvals n :
  np_roots eigvals (np_r_1_neg (repeat 0 n)) = repeat C0 n.
Proof.
  change (repeat 0 n) with ([] ++ repeat 0 n).
  rewrite (np_roots_trailing_zeros eigvals [] n).
  unfold np_roots, np_r_1_neg. cbn [map lstrip0].
  destruct (Req_dec_T 1 0) as [H|_]; [lra|].
  cbn [rev app lstrip0].
  destruct (Req_dec_T 1 0) as [H|_]; [lra|].
  reflexivity.
Qed.

Lemma ar_terms_zeros n w i : ar_terms (repeat 0 n) w i = C0.
Proof.
  revert i. induction n as [|n IH]; intros i; cbn [repeat ar_terms]; [reflexivity|].
  rewrite IH. apply C_eq; cx_simpl; ring.
Qed.

Lemma z_grid_unit zj : In zj z_grid -> norm2 zj = 1.
Proof.
  unfold z_grid. intros H. apply in_map_iff in H. destruct H as [f [<- _]].
  rewrite np_exp_2j_pi. apply norm2_expi.
Qed.

Section ZeroModel.

Variable eigvals : list (list R) -> list C.

(** X12: a model whose AR coefficients are all zero gives a result, whatever
    the eigenvalue routine: every pole is at the origin and the spectrum is
    flat, every power entry being [var / fsamp]. *)
Theorem zero_coefficients_give_flat_spectrum (self : SpectralAnalyzer) (n : nat) :
  thetap_of self (theta (model self)) = repeat 0 (S n) ->
  exists res,
    psd eigvals self = Returns res
    /\ Forall (fun P => pos P = C0) (poles res)
    /\ Forall (fun p => p = variance (wn (model self)) (k (model self))
                            / sampling_rate (wn (model self)))
         (powers res).
Proof.
  intros Hth.
  assert (Hall : Forall (fun o => oval o = C0)
                   (sorted_roots eigvals (thetap_of self (theta (model self))))).
  { apply (sorted_roots_Forall eigvals _ (fun v => v = C0)).
    rewrite Hth, np_roots_zeros. apply Forall_forall. intros x Hx.
    now apply repeat_spec in Hx. }
  assert (Hne : sorted_roots eigvals (thetap_of self (theta (model self))) <> []).
  { intros E. apply (f_equal (@length _)) in E.
    unfold sorted_roots in E. rewrite py_sorted_length, Hth, np_roots_zeros in E.
    discriminate. }
  assert (Hm : max_abs (sorted_roots eigvals (thetap_of self (theta (model self)))) < 0.99).
  { apply max_abs_lt_iff; [exact Hne|].
    eapply Forall_impl; [|exact Hall]. intros o Ho. cbv beta in Ho.
    rewrite Ho, abs_C0. lra. }
  pose proof (compute_psd_returns eigvals self (theta (model self)) (wn (model self))
                (k (model self)) Hne Hm) as Hret.
  exists (result_of eigvals self (theta (model self)) (wn (model self)) (k (model self))).
  split; [exact Hret|].
  apply compute_psd_returns_inv in Hret. destruct Hret as (_ & _ & _ & E).
  destruct (result_poles eigvals self (theta (model self)) (wn (model self))
              (k (model self)) E) as (Hpos & _ & _).
  split.
  - apply (proj1 (Forall_map pos (fun c => c = C0) _)).
    rewrite Hpos. apply Forall_map. exact Hall.
  - cbn [powers result_of]. apply Forall_map, Forall_forall. intros zj Hz.
    unfold stable_thetap. rewrite E, decay_thetap_one by reflexivity.
    rewrite abs_polyval_A_spec
      by (rewrite norm2_conj; now apply z_grid_unit).
    rewrite Hth. unfold A_spec. rewrite ar_terms_zeros.
    replace (C1 - C0)%cx with (of_R 1) by (apply C_eq; cx_simpl; ring).
    rewrite abs_of_R, Rabs_R1, pow1. unfold Rdiv at 1. rewrite Rinv_1. ring.
Qed.

End ZeroModel.

Lemma zero_coefficients_give_flat_spectrum_witness :
  exists res,
    psd eigvals_diag (analyzer_of [0; 0] [1] 1) = Returns res
    /\ Forall (fun P => pos P = C0) (poles res)
    /\ Forall (fun p => p = variance [1] 1 / sampling_rate [1]) (powers res).
Proof.
  apply (zero_coefficients_give_flat_spectrum eigvals_diag (analyzer_of [0; 0] [1] 1) 1).
  reflexivity.
Defined.

(** ** The model of order one *)


Lemma square_below_one c : Rabs c < 0.99 -> c * c < 1.
Proof. intros H. assert (H1 : Rabs c < 1) by lra. apply Rabs_def2 in H1. nra. Qed.

(** The residual of the only pole [c] of a model of order one. *)
Lemma residual_first_order c :
  c <> 0 -> c * c < 1 ->
  (C1 / residual_den (of_R c) [] [of_R c])%cx = of_R (1 / (1 - c * c)).
Proof.
  intros Hc Hcc. unfold residual_den, prod. cbn [map fold_left].
  apply C_eq; cx_simpl; field; repeat split; try lra; nra.
Qed.

Lemma np_polyval_first_order c w : np_polyval (np_r_1_neg [c]) w = (w - of_R c)%cx.
Proof.
  unfold np_polyval, np_r_1_neg. cbn [map fold_left]. apply C_eq; cx_simpl; ring.
Qed.

(** On the unit circle the contribution of the pole [c] and of its reflection
    [1 / c] is real, and it is the whole spectrum. *)
Lemma pole_comp_first_order (c v : R) (zj : C) :
  c <> 0 -> Rabs c < 0.99 -> norm2 zj = 1 ->
  scale v (of_R (1 / (1 - c * c)) * of_R c / (zj - of_R c)
           + - conj (of_R (1 / (1 - c * c))) * (C1 / conj (of_R c))
               / (zj - C1 / conj (of_R c)))%cx
  = of_R (v / abs (np_polyval (np_r_1_neg [c]) (conj zj)) ^ 2).
Proof.
  intros Hc Hlt Hu. destruct zj as [x y].
  rewrite np_polyval_first_order, abs_sqr.
  pose proof (square_below_one c Hlt) as Hcc.
  assert (Hu' : x * x + y * y = 1) by exact Hu.
  assert (Hx : -1 <= x <= 1) by (split; nra).
  assert (HN : 0 < (x - c) * (x - c) + y * y) by nra.
  assert (Hy2 : y ^ 2 = 1 - x ^ 2) by (simpl; lra).
  assert (HM : (x * (c * c) - c) * (x * (c * c) - c) + y * y * (c * c * (c * c)) <> 0).
  { replace ((x * (c * c) - c) * (x * (c * c) - c) + y * y * (c * c * (c * c)))
      with ((c * c) * ((x - c) * (x - c) + y * y)) by ring [Hy2].
    apply Rmult_integral_contrapositive_currified; [nra | lra]. }
  clear Hu.
  apply C_eq; cx_simpl;
    (field_simplify_eq; [ring [Hy2] | repeat split; try lra; try nra; exact HM]).
Qed.

Section FirstOrder.

Variable eigvals : list (list R) -> list C.

(** The eigenvalue of a 1x1 matrix is its entry. *)
Hypothesis eigvals_1x1 : forall a, eigvals [[a]] = [of_R a].

Lemma sorted_roots_first_order c :
  c <> 0 -> sorted_roots eigvals [c] = [mkobj 0 (of_R c)].
Proof.
  intros Hc. unfold sorted_roots, np_roots, np_r_1_neg. cbn [map lstrip0].
  destruct (Req_dec_T 1 0) as [H|_]; [lra|].
  cbn [rev app lstrip0].
  destruct (Req_dec_T (- c) 0) as [H|_]; [lra|].
  cbn [rev app length Nat.ltb Nat.leb Nat.sub repeat].
  unfold companion. cbn [length Nat.sub seq map tl hd].
  rewrite eigvals_1x1. replace (- - c / 1) with c by field. reflexivity.
Qed.

Lemma first_order_returns (self : SpectralAnalyzer) (c : R) :
  thetap_of self (theta (model self)) = [c] -> c <> 0 -> Rabs c < 0.99 ->
  psd eigvals self
  = Returns (result_of eigvals self (theta (model self)) (wn (model self)) (k (model self)))
  /\ stable_poles eigvals [c] = [mkobj 0 (of_R c)]
  /\ stable_thetap eigvals [c] = [c].
Proof.
  intros Hth Hc Hlt.
  assert (Hret : psd eigvals self
    = Returns (result_of eigvals self (theta (model self)) (wn (model self))
                 (k (model self)))).
  { unfold psd. apply compute_psd_returns; rewrite Hth, sorted_roots_first_order by exact Hc.
    - discriminate.
    - now rewrite max_abs_single, abs_of_R. }
  split; [exact Hret|].
  unfold psd in Hret. apply compute_psd_returns_inv in Hret.
  destruct Hret as (_ & _ & _ & E). rewrite Hth in E.
  split.
  - now rewrite (stable_poles_list _ _ E), sorted_roots_first_order.
  - unfold stable_thetap. rewrite E. now apply decay_thetap_one.
Qed.


(** X14: for the model of order one the decomposition into pole
    contributions is complete.  The result holds one contribution array, with
    or without aggregation, and entry by entry it is the power array: the
    contribution is real and nothing of the spectrum is left out. *)
Theorem first_order_contribution_is_the_spectrum (self : SpectralAnalyzer) (c : R) :
  thetap_of self (theta (model self)) = [c] -> c <> 0 -> Rabs c < 0.99 ->
  exists res,
    psd eigvals self = Returns res
    /\ comps res = [map of_R (powers res)].
Proof.
  intros Hth Hc Hlt.
  destruct (first_order_returns self c Hth Hc Hlt) as (Hret & Hsp & Hst).
  pose proof (square_below_one c Hlt) as Hcc.
  eexists. split; [exact Hret|].
  cbn [comps powers result_of]. rewrite Hth, Hst.
  assert (Hplain : plain_comps eigvals [c] (wn (model self)) (k (model self))
    = [map of_R
         (map (fun zj =>
                 variance (wn (model self)) (k (model self))
                 / sampling_rate (wn (model self))
                 / abs (np_polyval (np_r_1_neg [c]) (conj zj)) ^ 2) z_grid)]).
  { unfold plain_comps, residuals. rewrite Hsp.
    cbn [map oval oid poles_residuals_of filter Nat.eqb negb zip_with].
    rewrite residual_first_order by assumption.
    unfold pole_comp. rewrite map_map. f_equal. apply map_ext_in.
    intros zj Hz. apply pole_comp_first_order; try assumption.
    now apply z_grid_unit. }
  assert (Hagg : agg_comps eigvals [c] (wn (model self)) (k (model self))
                 = plain_comps eigvals [c] (wn (model self)) (k (model self))).
  { unfold agg_comps. rewrite Hplain, Hsp. reflexivity. }
  destruct (aggregate self); [rewrite Hagg|]; exact Hplain.
Qed.

End FirstOrder.

Lemma eigvals_diag_1x1 a : eigvals_diag [[a]] = [of_R a].
Proof. reflexivity. Qed.


Lemma first_order_contribution_is_the_spectrum_witness :
  exists res,
    psd eigvals_diag (analyzer_of [1 / 2] [1] 1) = Returns res
    /\ comps res = [map of_R (powers res)].
Proof.
  apply (first_order_contribution_is_the_spectrum eigvals_diag eigvals_diag_1x1
           (analyzer_of [1 / 2] [1] 1) (1 / 2)).
  - reflexivity.
  - lra.
  - rewrite Rabs_right; lra.
Defined.

(** ** What a returned result never carries *)

Section Uncorrected.

Variable eigvals : list (list R) -> list C.

(** X15: no returned result carries a stability correction.  Whenever [psd]
    returns, every pole lies strictly inside the circle of radius 0.99 and the
    power array is evaluated on the AR coefficients as they were given, none
    of them decayed. *)
Theorem returned_result_is_uncorrected (self : SpectralAnalyzer) (res : SpectralAnalysis) :
  psd eigvals self = Returns res ->
  Forall (fun P => abs (pos P) < 0.99) (poles res)
  /\ powers res
     = map (fun zj =>
              (variance (wn (model self)) (k (model self))
                 / sampling_rate (wn (model self)))
              / abs (np_polyval (np_r_1_neg (thetap_of self (theta (model self))))
                       (conj zj)) ^ 2) z_grid.
Proof.
  intros Hret. unfold psd in Hret.
  apply compute_psd_returns_inv in Hret. destruct Hret as (-> & Hne & Hlt & E).
  destruct (result_poles eigvals self (theta (model self)) (wn (model self))
              (k (model self)) E) as (Hpos & _ & _).
  split.
  - apply (proj1 (Forall_map pos (fun c => abs c < 0.99) _)).
    rewrite Hpos. apply Forall_map. now apply max_abs_lt_iff.
  - cbn [powers result_of]. unfold stable_thetap.
    rewrite E, decay_thetap_one by reflexivity. reflexivity.
Qed.

End Uncorrected.

Lemma returned_result_is_uncorrected_witness :
  Forall (fun P => abs (pos P) < 0.99)
    (poles (result_of eigvals_diag (analyzer_of [1 / 2] [1] 1) [1 / 2] [1] 1)).
Proof.
  apply (returned_result_is_uncorrected eigvals_diag (analyzer_of [1 / 2] [1] 1)).
  apply psd_half_returns.
Defined.
